(** * minitorch autodiff: a shallow embedding of [minitorch/autodiff.py]

    The module builds a computation graph out of [Variable] objects that
    refer to each other through [History] records, and runs a worklist
    algorithm ([backpropagate]) that pushes derivatives from an output
    back to the leaves.

    Python objects with identity ([Variable]) live in a store indexed by
    locations; everything that mutates a variable ([requires_grad_],
    [accumulate_derivative], the [used] counter in [apply]) is written
    as a state transformer on that store.  Python exceptions are values
    of type [exn].  Payloads are Python floats, that is IEEE binary64,
    the type [float] of the kernel. *)

From Stdlib Require Import Floats.
From stdpp Require Import gmap strings list pretty.

Open Scope string_scope.
Open Scope list_scope.

(** ** Exceptions and the two monads *)

(** The Python exceptions the module can raise.  [InvalidRef] is not a
    Python exception: it is what the model answers when a location that
    was never allocated is dereferenced, which no Python program can do. *)
Inductive exn : Type :=
| AttributeError
| IndexError
| KeyError (key : string)
| TypeError
| AssertionError (msg : string)
| InvalidRef.

Inductive Res (A : Type) : Type :=
| Ok (a : A)
| Raise (e : exn).
Arguments Ok {A} a.
Arguments Raise {A} e.

Definition bindR {A B} (r : Res A) (k : A -> Res B) : Res B :=
  match r with
  | Ok a => k a
  | Raise e => Raise e
  end.

Notation "'try' x <- c ; k" := (bindR c (fun x => k))
  (at level 10, x pattern, c at level 100, k at level 200).

(** ** Values *)

(** A value that is either one float or a tuple/list of floats: what a
    [backward] hook returns, and what [unwrap_tuple] returns. *)
Inductive PyVal : Type :=
| One (x : float)
| Seq (xs : list float).

(** Locations of the store. *)
Abbreviation loc := nat (only parsing).

(** An operand of [apply]: a [Variable] object (by reference) or a raw
    number. *)
Inductive Val : Type :=
| VVar (l : loc)
| VRaw (x : float).

(** ** Context *)

Definition unwrap_tuple (x : list float) : PyVal :=
  match x with
  | [x0] => One x0
  | _ => Seq x
  end.

Record Context : Type := mkContext {
  _saved_values : option (list float);
  no_grad : bool
}.

Definition Context_init (no_grad : bool) : Context :=
  {| _saved_values := None; no_grad := no_grad |}.

Definition save_for_backward (self : Context) (values : list float) : Context :=
  if no_grad self then self
  else {| _saved_values := Some values; no_grad := no_grad self |}.

Definition saved_values (self : Context) : Res PyVal :=
  if no_grad self then Raise (AssertionError "Doesn't require grad")
  else match _saved_values self with
       | None => Raise (AssertionError "Did you forget to save values?")
       | Some x => Ok (unwrap_tuple x)
       end.

(** ** Function classes and History *)

(** A subclass of [FunctionBase].  The base class leaves [forward],
    [backward], [data_type] and [data] to its subclasses, so they are
    the fields of the record.  [forward] receives the context object and
    may change it; the context it returns is that object after the call.
    [data_type c] is the test [isinstance(c, cls.data_type)].  [backward]
    receives whatever [History.ctx] holds, which is [None] for a
    [History()] built without arguments. *)
Record FunctionBase : Type := mkFunction {
  data_type : float -> bool;
  data : float -> float;
  forward : Context -> list float -> Res (Context * float);
  backward : option Context -> float -> Res PyVal
}.

Record History : Type := mkHistory {
  last_fn : option FunctionBase;
  ctx : option Context;
  inputs : option (list Val)
}.

(** [History()] *)
Definition History_init : History :=
  {| last_fn := None; ctx := None; inputs := None |}.

(** ** Variable and the store *)

(** A [Variable] object: the attributes [__init__] sets ([Variable] is a
    reserved word here, hence [Var]).  The last field is modelled from
    the spec: [value], the payload of the node, which the subclasses
    store and [get_data] returns. *)
Record Var : Type := mkVar {
  history : option History;
  _derivative : option float;
  unique_id : string;
  name : string;
  used : nat;
  value : float
}.

(** The global [variable_count] and the objects allocated so far. *)
Record State : Type := mkState {
  variable_count : N;
  heap : list Var
}.

Definition initial_state : State := {| variable_count := 1; heap := [] |}.

Definition M (A : Type) : Type := State -> Res A * State.

Definition ret {A} (a : A) : M A := fun s => (Ok a, s).

Definition throw {A} (e : exn) : M A := fun s => (Raise e, s).

Definition bindM {A B} (m : M A) (k : A -> M B) : M B :=
  fun s =>
    match m s with
    | (Ok a, s') => k a s'
    | (Raise e, s') => (Raise e, s')
    end.

Notation "'do' x <- c ; k" := (bindM c (fun x => k))
  (at level 10, x pattern, c at level 100, k at level 200).

(** A computation that only reads the store. *)
Definition liftR {A} (r : list Var -> Res A) : M A :=
  fun s => (r (heap s), s).

Definition deref (l : loc) (h : list Var) : Res Var :=
  match h !! l with
  | Some v => Ok v
  | None => Raise InvalidRef
  end.

Definition store (l : loc) (v : Var) : M unit :=
  fun s => (Ok tt, {| variable_count := variable_count s; heap := <[l := v]> (heap s) |}).

Fixpoint foldM {A B} (f : A -> B -> M A) (a : A) (l : list B) : M A :=
  match l with
  | [] => ret a
  | x :: l' => do a' <- f a x; foldM f a' l'
  end.

Fixpoint foldR {A B} (f : A -> B -> Res A) (a : A) (l : list B) : Res A :=
  match l with
  | [] => Ok a
  | x :: l' => try a' <- f a x; foldR f a' l'
  end.

(** ** Methods of Variable *)

(** [Variable.__init__(history, name)].  The assertion on [history] holds
    by typing.  The new object is placed at the end of the store.
    [value] is stored by the subclass constructor, which is not part of
    this module. *)
Definition Variable_init (history : option History) (name : option string)
    (value : float) : M loc :=
  fun s =>
    let variable_count := (variable_count s + 1)%N in
    let unique_id := "Variable" +:+ pretty variable_count in
    let self := {| history := history;
                   _derivative := None;
                   unique_id := unique_id;
                   name := match name with Some n => n | None => unique_id end;
                   used := 0;
                   value := value |} in
    (Ok (length (heap s)),
     {| variable_count := variable_count; heap := heap s ++ [self] |}).

Definition set_history (hist : option History) (v : Var) : Var :=
  {| history := hist; _derivative := _derivative v; unique_id := unique_id v;
     name := name v; used := used v; value := value v |}.

Definition set_derivative (d : option float) (v : Var) : Var :=
  {| history := history v; _derivative := d; unique_id := unique_id v;
     name := name v; used := used v; value := value v |}.

Definition set_used (n : nat) (v : Var) : Var :=
  {| history := history v; _derivative := _derivative v; unique_id := unique_id v;
     name := name v; used := n; value := value v |}.

Definition requires_grad_ (self : loc) (val : bool) : M unit :=
  do v <- liftR (deref self);
  store self (set_history (Some History_init) v).

(** The property [derivative]. *)
Definition derivative (v : Var) : option float := _derivative v.

(** [self.history.last_fn is None]: reading [last_fn] off [None] raises. *)
Definition is_leaf (v : Var) : Res bool :=
  match history v with
  | None => Raise AttributeError
  | Some hist =>
      match last_fn hist with
      | None => Ok true
      | Some _ => Ok false
      end
  end.

Definition zeros : float := 0%float.

Definition accumulate_derivative (self : loc) (val : float) : M unit :=
  do v <- liftR (deref self);
  let d := match _derivative v with
           | None => zeros
           | Some d => d
           end in
  store self (set_derivative (Some (d + val)%float) v).

Definition expand (self : Var) (x : float) : float := x.

(** ** Module-level functions and FunctionBase *)

(** [not isinstance(val, Variable) or val.history is None] *)
Definition is_constant (val : Val) (h : list Var) : Res bool :=
  match val with
  | VRaw _ => Ok true
  | VVar l =>
      try v <- deref l h;
      Ok (match history v with None => true | Some _ => false end)
  end.

(** Modelled from the spec: the factory [cls.variable(raw, history)],
    which [FunctionBase] leaves to its subclasses.  It wraps the forward
    result and the optional history into a new node: a fresh id, the
    value and the history stored, the derivative absent. *)
Definition variable (raw : float) (back : option History) : M loc :=
  Variable_init back None raw.

(** One turn of the first loop of [apply].  [v.get_data()] reads the
    payload of the operand. *)
Definition apply_operand (acc : list float * bool) (v : Val) : M (list float * bool) :=
  let '(raw_vals, need_grad) := acc in
  match v with
  | VVar l =>
      do var <- liftR (deref l);
      let need_grad := match history var with
                       | Some _ => true
                       | None => need_grad
                       end in
      do _ <- store l (set_used (used var + 1) var);
      ret (raw_vals ++ [value var], need_grad)
  | VRaw x => ret (raw_vals ++ [x], need_grad)
  end.

Definition apply (cls : FunctionBase) (vals : list Val) : M loc :=
  do (raw_vals, need_grad) <- foldM apply_operand ([], false) vals;
  let c0 := Context_init (negb need_grad) in
  do (c1, c) <- (fun s => (forward cls c0 raw_vals, s));
  if data_type cls c then
    let back := if need_grad
                then Some {| last_fn := Some cls; ctx := Some c1; inputs := Some vals |}
                else None in
    variable (data cls c) back
  else throw (AssertionError "Expected return typ").

(** The body of the loop of [chain_rule], at index [i]. *)
Definition chain_rule_at (inputs : list Val) (backward_val : list float)
    (h : list Var) (result : list (Val * float)) (i : nat) : Res (list (Val * float)) :=
  match inputs !! i with
  | None => Raise IndexError
  | Some inp =>
      try c <- is_constant inp h;
      if c then Ok result
      else match inp with
           | VRaw _ => Raise AttributeError
           | VVar l =>
               try v <- deref l h;
               match backward_val !! i with
               | None => Raise IndexError
               | Some g => Ok (result ++ [(inp, expand v g)])
               end
           end
  end.

(** [hasattr(backward_val, '__iter__')]: a lone value becomes a
    one-element list. *)
Definition as_iterable (backward_val : PyVal) : list float :=
  match backward_val with
  | One x => [x]
  | Seq xs => xs
  end.

Definition chain_rule (cls : FunctionBase) (c : option Context)
    (inputs : option (list Val)) (d_output : float) (h : list Var)
    : Res (list (Val * float)) :=
  try backward_val <- backward cls c d_output;
  let backward_val := as_iterable backward_val in
  match inputs with
  | None => Raise TypeError
  | Some inputs =>
      foldR (chain_rule_at inputs backward_val h) [] (seq 0 (length inputs))
  end.

(** [History.backprop_step] *)
Definition backprop_step (self : History) (d_output : float) (h : list Var)
    : Res (list (Val * float)) :=
  match last_fn self with
  | None => Raise AttributeError
  | Some f => chain_rule f (ctx self) (inputs self) d_output h
  end.

(** ** backpropagate *)

Definition liftE {A} (r : Res A) : M A := fun s => (r, s).

(** [dict_deriv[key]] *)
Definition dict_get (dict_deriv : gmap string float) (key : string) : Res float :=
  match dict_deriv !! key with
  | Some x => Ok x
  | None => Raise (KeyError key)
  end.

(** The body of [for v in v_d]:
    [dict_deriv[v[0].unique_id] = v[1]] and then [queue.append(v[0])]. *)
Definition bp_record (h : list Var) (acc : list Val * gmap string float)
    (v : Val * float) : Res (list Val * gmap string float) :=
  let '(queue, dict_deriv) := acc in
  match v.1 with
  | VRaw _ => Raise AttributeError
  | VVar l =>
      try var <- deref l h;
      Ok (queue ++ [v.1], <[unique_id var := v.2]> dict_deriv)
  end.

(** The body of the [while] loop, [Variable_1] being the element popped
    from the front of the queue and [queue] what is left of it. *)
Definition bp_iteration (Variable_1 : Val) (queue : list Val)
    (dict_deriv : gmap string float) : M (list Val * gmap string float) :=
  match Variable_1 with
  | VRaw _ => throw AttributeError
  | VVar l =>
      do v <- liftR (deref l);
      do leaf <- liftE (is_leaf v);
      if leaf then
        do d <- liftE (dict_get dict_deriv (unique_id v));
        do _ <- accumulate_derivative l d;
        ret (queue, dict_deriv)
      else
        match history v with
        | None => throw AttributeError
        | Some hist =>
            match last_fn hist with
            | None => throw AttributeError
            | Some f =>
                do d <- liftE (dict_get dict_deriv (unique_id v));
                do v_d <- liftR (chain_rule f (ctx hist) (inputs hist) d);
                liftR (fun h => foldR (bp_record h) (queue, dict_deriv) v_d)
            end
        end
  end.

(** The [while len(queue) != 0] loop.  Nothing in the algorithm bounds
    the number of turns, so the model counts them: [None] means the
    turns allowed were used up before the queue was empty. *)
Fixpoint bp_while (fuel : nat) (queue : list Val) (dict_deriv : gmap string float)
    (s : State) : option (Res unit * State) :=
  match queue with
  | [] => Some (Ok tt, s)
  | Variable_1 :: queue' =>
      match fuel with
      | O => None
      | S fuel' =>
          match bp_iteration Variable_1 queue' dict_deriv s with
          | (Ok (q, d), s') => bp_while fuel' q d s'
          | (Raise e, s') => Some (Raise e, s')
          end
      end
  end.

Definition backpropagate (fuel : nat) (variable : Val) (deriv : float)
    (s : State) : option (Res unit * State) :=
  match variable with
  | VRaw _ => Some (Raise AttributeError, s)
  | VVar l =>
      match deref l (heap s) with
      | Raise e => Some (Raise e, s)
      | Ok v => bp_while fuel [variable] (<[unique_id v := deriv]> ∅) s
      end
  end.

(** [Variable.backward(d_output=None)] *)
Definition Variable_backward (fuel : nat) (self : loc) (d_output : option float)
    (s : State) : option (Res unit * State) :=
  let d_output := match d_output with
                  | None => 1%float
                  | Some d => d
                  end in
  backpropagate fuel (VVar self) d_output s.

(** ** Operations used in the scenarios *)

Definition any_float (c : float) : bool := true.

(** [forward(ctx, a) = a*a], saving [a]; [backward(ctx, d) = (2*a*d,)]. *)
Definition square : FunctionBase :=
  {| data_type := any_float;
     data := fun c => c;
     forward := fun c raw =>
       match raw with
       | [a] => Ok (save_for_backward c [a], (a * a)%float)
       | _ => Raise TypeError
       end;
     backward := fun c d =>
       match c with
       | None => Raise AttributeError
       | Some c =>
           try a <- saved_values c;
           match a with
           | One a => Ok (Seq [(2 * a * d)%float])
           | Seq _ => Raise TypeError
           end
       end |}.

(** [forward(ctx, a) = k*a]; [backward(ctx, d) = (k*d,)]. *)
Definition scale (k : float) : FunctionBase :=
  {| data_type := any_float;
     data := fun c => c;
     forward := fun c raw =>
       match raw with
       | [a] => Ok (c, (k * a)%float)
       | _ => Raise TypeError
       end;
     backward := fun _ d => Ok (Seq [(k * d)%float]) |}.

(** [forward(ctx, x, y) = x + y]; [backward(ctx, d) = (d, d)]. *)
Definition add : FunctionBase :=
  {| data_type := any_float;
     data := fun c => c;
     forward := fun c raw =>
       match raw with
       | [x; y] => Ok (c, (x + y)%float)
       | _ => Raise TypeError
       end;
     backward := fun _ d => Ok (Seq [d; d]) |}.

(** A leaf with gradient tracking: a fresh variable, then
    [requires_grad_(True)]. *)
Definition tracked_leaf (x : float) : M loc :=
  do l <- Variable_init None None x;
  do _ <- requires_grad_ l true;
  ret l.

(** [a = 2.0; b = square(a)] *)
Definition square_scenario : M (loc * loc) :=
  do a <- tracked_leaf 2%float;
  do b <- apply square [VVar a];
  ret (a, b).

(** [y = f(x); z = g(x); w = h(y, z)] with [f] doubling, [g] tripling
    and [h] the sum. *)
Definition diamond_scenario : M (loc * loc) :=
  do x <- tracked_leaf 1%float;
  do y <- apply (scale 2) [VVar x];
  do z <- apply (scale 3) [VVar x];
  do w <- apply add [VVar y; VVar z];
  ret (x, w).

Definition derivative_at (l : loc) (s : State) : option (option float) :=
  derivative <$> heap s !! l.

(** ** Auxiliary notions used in the statements *)

(** An operand refers to an object of the store (raw numbers always do). *)
Definition allocated (h : list Var) (x : Val) : bool :=
  match x with
  | VVar l => bool_decide (l < length h)
  | VRaw _ => true
  end.

(** The operands [chain_rule] keeps: those [is_constant] answers [False]
    for. *)
Definition tracked (h : list Var) (x : Val) : bool :=
  match is_constant x h with
  | Ok false => true
  | _ => false
  end.

(** [chain_rule] as its specification words it: the inputs paired with
    the local derivatives position by position, the constants dropped,
    and [expand] applied to what is kept. *)
Definition chain_rule_spec (h : list Var) (inputs : list Val) (d_inputs : list float)
    : list (Val * float) :=
  omap (fun p : Val * float =>
          match p.1 with
          | VRaw _ => None
          | VVar l =>
              match h !! l with
              | Some v =>
                  match history v with
                  | None => None
                  | Some _ => Some (p.1, expand v p.2)
                  end
              | None => None
              end
          end)
       (zip inputs d_inputs).

(** The loop of [chain_rule] written by recursion on the inputs that are
    left, the gradients shifted along with them. *)
Fixpoint chain_rule_from (h : list Var) (inputs : list Val) (gs : list float)
    (result : list (Val * float)) : Res (list (Val * float)) :=
  match inputs with
  | [] => Ok result
  | inp :: rest =>
      try c <- is_constant inp h;
      if c then chain_rule_from h rest (tail gs) result
      else match inp with
           | VRaw _ => Raise AttributeError
           | VVar l =>
               try v <- deref l h;
               match gs with
               | [] => Raise IndexError
               | g :: _ => chain_rule_from h rest (tail gs) (result ++ [(inp, expand v g)])
               end
           end
  end.

(** The contexts a hook can reach from [c0] through [save_for_backward],
    the only method of [Context] that writes. *)
Definition saves_from (c0 : Context) (saves : list (list float)) : Context :=
  foldl save_for_backward c0 saves.

(** The raw payload [apply] extracts from an operand. *)
Definition raw_val (h : list Var) (x : Val) : float :=
  match x with
  | VVar l => match h !! l with Some v => value v | None => 0%float end
  | VRaw r => r
  end.

(** The states the loop of [backpropagate] goes through, from the call
    [backpropagate(variable, deriv)] in state [s0]: the queue, the
    dictionary and the store at the head of each turn. *)
Inductive bp_reach (variable : loc) (deriv : float) (s0 : State)
    : list Val -> gmap string float -> State -> Prop :=
| bp_reach_start v :
    heap s0 !! variable = Some v ->
    bp_reach variable deriv s0 [VVar variable] (<[unique_id v := deriv]> ∅) s0
| bp_reach_turn Variable_1 queue dict_deriv s queue' dict_deriv' s' :
    bp_reach variable deriv s0 (Variable_1 :: queue) dict_deriv s ->
    bp_iteration Variable_1 queue dict_deriv s = (Ok (queue', dict_deriv'), s') ->
    bp_reach variable deriv s0 queue' dict_deriv' s'.

(** What a run of [backpropagate] may change between the stores of [s0]
    and [s]: the derivative of a variable that has a history, and
    nothing else. *)
Definition bp_frame (s0 s : State) : Prop :=
  variable_count s = variable_count s0 /\
  length (heap s) = length (heap s0) /\
  forall l v0, heap s0 !! l = Some v0 ->
    exists v, heap s !! l = Some v /\
              set_derivative None v = set_derivative None v0 /\
              (history v0 = None -> v = v0).

(** A store with its [used] counters set to zero.  The first loop of
    [apply] changes nothing else, so two stores it relates agree here. *)
Definition used_erased (h : list Var) : list Var := set_used 0 <$> h.

(** The node [cls.variable(cls.data(c), back)] creates in state [s]. *)
Definition new_node (s : State) (raw : float) (back : option History) : Var :=
  let unique_id := "Variable" +:+ pretty (variable_count s + 1)%N in
  {| history := back; _derivative := None; unique_id := unique_id;
     name := unique_id; used := 0; value := raw |}.

(** A store with a constant variable at location 0 and a tracked leaf
    at location 1. *)
Definition mixed_state : State :=
  ((do _ <- Variable_init None None 7%float; tracked_leaf 1%float) initial_state).2.

Definition mixed_store : list Var := heap mixed_state.

(** [r = add(c, p)] over [mixed_state]: [c] the constant variable, [p]
    the tracked leaf; [r] is at location 2. *)
Definition sum_state : State :=
  (apply add [VVar 0; VVar 1] mixed_state).2.

(** The store after [tracked_leaf 1.0] from the initial state: one
    variable, at location 0, with an empty [History]. *)
Definition one_leaf_store : list Var :=
  heap (tracked_leaf 1%float initial_state).2.

(** ** The rest of the module *)

(** [wrap_tuple]: a tuple is returned as it is, anything else becomes a
    one-element tuple.  [Seq] stands for a tuple here. *)
Definition wrap_tuple (x : PyVal) : list float :=
  match x with
  | Seq xs => xs
  | One x0 => [x0]
  end.

(** [Variable.zero_derivative_] and its alias [zero_grad_]. *)
Definition zero_derivative_ (self : loc) : M unit :=
  do v <- liftR (deref self);
  store self (set_derivative (Some zeros) v).

Definition zero_grad_ (self : loc) : M unit := zero_derivative_ self.

(** ["Variable" + str(k)] *)
Definition uid (k : N) : string := "Variable" +:+ pretty k.

(** The identifiers of the store are the names of counter values used
    so far, and no two variables share one. *)
Definition ids_ok (s : State) : Prop :=
  (forall i id, (unique_id <$> heap s) !! i = Some id ->
     exists k, id = uid k /\ (k <= variable_count s)%N) /\
  NoDup (unique_id <$> heap s).

(** The operands a variable was computed from. *)
Definition inputs_of (v : Var) : list Val :=
  match history v with
  | Some hist => match inputs hist with
                 | Some ins => ins
                 | None => []
                 end
  | None => []
  end.

Definition operand_below (l : loc) (x : Val) : bool :=
  match x with
  | VVar l' => bool_decide (l' < l)
  | VRaw _ => true
  end.

(** Every variable was computed from variables allocated before it. *)
Definition acyclic (h : list Var) : Prop :=
  forall l ins, (inputs_of <$> h) !! l = Some ins ->
    forallb (operand_below l) ins = true.

(** The largest number of operands of a variable of the store. *)
Definition max_inputs (h : list Var) : nat := max_list (length <$> (inputs_of <$> h)).

(** The number of positions of [vals] that hold the variable [l]. *)
Definition occurrences (l : loc) (vals : list Val) : nat :=
  length (List.filter (fun x => match x with
                                | VVar l' => Nat.eqb l' l
                                | VRaw _ => false
                                end) vals).

(** A queued operand that is a variable of the store [h] with an entry
    in the dictionary. *)
Definition has_entry (dict_deriv : gmap string float) (h : list Var) (x : Val) : Prop :=
  exists l v d, x = VVar l /\ h !! l = Some v /\ dict_get dict_deriv (unique_id v) = Ok d.

(** [acyclic], as a test on the lists of operands from location [l] on. *)
Fixpoint acyclic_from (l : loc) (g : list (list Val)) : bool :=
  match g with
  | [] => true
  | ins :: g' => forallb (operand_below l) ins && acyclic_from (S l) g'
  end.

(** A bound on the turns of the loop of [backpropagate] a queued operand
    accounts for, [k] being the largest number of operands of a
    variable. *)
Definition turn_bound (k : nat) (x : Val) : nat :=
  match x with
  | VVar l => S k ^ l
  | VRaw _ => 1
  end.

(** ** topological_sort *)

(** The loop [for m in var.history.inputs: if not is_constant(m):
    visit(m)] of [visit], the recursive call given as [visit]; the state
    is the list [order] and the set [seen]. *)
Fixpoint visit_inputs
    (visit : Val -> list Val * gset string -> option (Res (list Val * gset string)))
    (h : list Var) (ms : list Val) (st : list Val * gset string)
    : option (Res (list Val * gset string)) :=
  match ms with
  | [] => Some (Ok st)
  | m :: ms' =>
      match is_constant m h with
      | Raise e => Some (Raise e)
      | Ok true => visit_inputs visit h ms' st
      | Ok false =>
          match visit m st with
          | Some (Ok st') => visit_inputs visit h ms' st'
          | other => other
          end
      end
  end.

(** The inner function [visit] of [topological_sort].  Python bounds
    the depth of the recursion; here [depth] counts the nested calls
    allowed and [None] means that more were needed. *)
Fixpoint visit (depth : nat) (h : list Var) (var : Val) (st : list Val * gset string)
    : option (Res (list Val * gset string)) :=
  match depth with
  | O => None
  | S depth' =>
      match var with
      | VRaw _ => Some (Raise AttributeError)
      | VVar l =>
          match h !! l with
          | None => Some (Raise InvalidRef)
          | Some v =>
              if decide (unique_id v ∈ st.2) then Some (Ok st)
              else
                match is_leaf v with
                | Raise e => Some (Raise e)
                | Ok leaf =>
                    let after :=
                      if leaf then Some (Ok st)
                      else match history v with
                           | None => Some (Raise AttributeError)
                           | Some hist =>
                               match inputs hist with
                               | None => Some (Raise TypeError)
                               | Some ms => visit_inputs (visit depth' h) h ms st
                               end
                           end in
                    match after with
                    | Some (Ok (order, seen)) =>
                        Some (Ok (var :: order, {[unique_id v]} ∪ seen))
                    | other => other
                    end
                end
          end
      end
  end.

Definition topological_sort (depth : nat) (variable : Val) (h : list Var)
    : option (Res (list Val)) :=
  match visit depth h variable ([], ∅) with
  | Some (Ok (order, _)) => Some (Ok order)
  | Some (Raise e) => Some (Raise e)
  | None => None
  end.



(** A chain of [n] operations from the variable at [l] down to a leaf:
    with the derivative [d] at [l], [chain_rule] of each variable of
    the chain returns one operand, the next variable, and the derivative
    that reaches the leaf at [leaf] is [g]. *)
Inductive bp_chain (h : list Var) : nat -> loc -> float -> loc -> float -> Prop :=
| bp_chain_leaf l d v :
    h !! l = Some v -> is_leaf v = Ok true ->
    bp_chain h 0 l d l d
| bp_chain_step n l d v hist f l' d' leaf g :
    h !! l = Some v -> history v = Some hist -> last_fn hist = Some f ->
    chain_rule f (ctx hist) (inputs hist) d h = Ok [(VVar l', d')] ->
    bp_chain h n l' d' leaf g ->
    bp_chain h (S n) l d leaf g.

(** * Properties *)

(** ** Context *)

(** C6. The [saved_values] accessor fails with an assertion error when
    [no_grad] is set, fails with an assertion error when nothing was
    saved, and otherwise returns the stored tuple, a one-element tuple
    unwrapped to its element; [save_for_backward] changes nothing when
    [no_grad] is set and otherwise replaces whatever was saved. *)
Theorem context_contract :
  (forall c, no_grad c = true ->
     saved_values c = Raise (AssertionError "Doesn't require grad")) /\
  (forall c, no_grad c = false -> _saved_values c = None ->
     saved_values c = Raise (AssertionError "Did you forget to save values?")) /\
  saved_values (Context_init false)
    = Raise (AssertionError "Did you forget to save values?") /\
  (forall c xs, no_grad c = false -> _saved_values c = Some xs ->
     saved_values c = Ok (unwrap_tuple xs)) /\
  (forall x, unwrap_tuple [x] = One x) /\
  (forall xs, length xs <> 1 -> unwrap_tuple xs = Seq xs) /\
  (forall c values, no_grad c = true -> save_for_backward c values = c) /\
  (forall c values, no_grad c = false ->
     save_for_backward c values = {| _saved_values := Some values; no_grad := false |}) /\
  (forall c values, no_grad c = false ->
     saved_values (save_for_backward c values) = Ok (unwrap_tuple values)).
Proof.
  repeat apply conj.
  - intros c H. unfold saved_values. by rewrite H.
  - intros c H1 H2. unfold saved_values. by rewrite H1, H2.
  - reflexivity.
  - intros c xs H1 H2. unfold saved_values. by rewrite H1, H2.
  - reflexivity.
  - intros [|x [|y xs]] H; simpl in *; congruence.
  - intros c values H. unfold save_for_backward. by rewrite H.
  - intros c values H. unfold save_for_backward. by rewrite H.
  - intros c values H. unfold saved_values, save_for_backward. by rewrite H.
Qed.

Lemma context_contract_witness :
  saved_values (save_for_backward (Context_init false) [2%float]) = Ok (One 2%float) /\
  saved_values (save_for_backward (Context_init true) [2%float])
    = Raise (AssertionError "Doesn't require grad").
Proof.
  split.
  - apply (proj2 (proj2 (proj2 (proj2 (proj2 (proj2 (proj2 (proj2 context_contract))))))));
      reflexivity.
  - apply (proj1 context_contract); reflexivity.
Defined.

(** ** is_leaf *)

(** C2 (as the code has it).  [is_leaf()] answers [True] exactly when
    the variable has a [History] whose [last_fn] is [None], and [False]
    exactly when its [History] records a function. *)
Theorem is_leaf_spec (v : Var) :
  (is_leaf v = Ok true <-> exists hist, history v = Some hist /\ last_fn hist = None) /\
  (is_leaf v = Ok false <->
     exists hist f, history v = Some hist /\ last_fn hist = Some f).
Proof.
  unfold is_leaf. destruct (history v) as [hist|]; [destruct (last_fn hist) eqn:E|];
    split; split; intros H; try discriminate; try reflexivity; eauto;
    first [ destruct H as (? & ? & ? & ?); congruence
          | destruct H as (? & ? & ?); congruence ].
Qed.

(** C2, refuted as stated: a variable whose history is [None] does not
    get [True] from [is_leaf()], and a variable that went through
    [requires_grad_] gets [True] although its history is not [None]. *)
Lemma is_leaf_iff_history_none_counterexample :
  let v := {| history := None; _derivative := None; unique_id := "Variable2";
              name := "Variable2"; used := 0; value := 1%float |} in
  let v' := set_history (Some History_init) v in
  ~ (is_leaf v = Ok true <-> history v = None) /\
  ~ (is_leaf v' = Ok true <-> history v' = None).
Proof.
  simpl. split.
  - intros [_ H]. specialize (H eq_refl). discriminate.
  - intros [H _]. specialize (H eq_refl). discriminate.
Qed.

(** C9. On a variable whose history is [None], [is_leaf()] returns no
    boolean: reading [last_fn] off [None] raises [AttributeError]. *)
Theorem is_leaf_raises_without_history (v : Var) :
  history v = None -> is_leaf v = Raise AttributeError.
Proof. intros H. unfold is_leaf. by rewrite H. Qed.

Lemma is_leaf_raises_without_history_witness :
  is_leaf {| history := None; _derivative := None; unique_id := "Variable2";
             name := "Variable2"; used := 0; value := 3%float |}
  = Raise AttributeError.
Proof. apply is_leaf_raises_without_history. reflexivity. Defined.

(** ** chain_rule *)

Lemma allocated_deref h l : allocated h (VVar l) = true -> exists v, h !! l = Some v.
Proof.
  simpl. intros H%bool_decide_eq_true. by apply lookup_lt_is_Some_2.
Qed.

Lemma tracked_spec h x :
  tracked h x = true <->
  exists l v hist, x = VVar l /\ h !! l = Some v /\ history v = Some hist.
Proof.
  unfold tracked, is_constant, deref. split.
  - destruct x as [l|r]; [|discriminate].
    destruct (h !! l) as [v|] eqn:E; simpl; [|discriminate].
    destruct (history v) as [hist|] eqn:E'; [|discriminate]. eauto 6.
  - intros (l & v & hist & -> & E & E'). rewrite E. simpl. by rewrite E'.
Qed.

Lemma tail_drop {A} (l : list A) k : tail (drop k l) = drop (S k) l.
Proof.
  revert l. induction k as [|k IH]; intros [|x l]; simpl; auto.
Qed.

(** The loop over [range(len(inputs))] walks the inputs and the
    gradients side by side. *)
Lemma chain_rule_loop_from inputs gs h n : forall k result,
  k + n <= length inputs ->
  foldR (chain_rule_at inputs gs h) result (seq k n)
  = chain_rule_from h (take n (drop k inputs)) (drop k gs) result.
Proof.
  induction n as [|n IH]; intros k result Hk; [done|].
  destruct (lookup_lt_is_Some_2 inputs k) as [inp Hinp]; [lia|].
  rewrite (drop_S _ _ _ Hinp). simpl. unfold chain_rule_at at 1. rewrite Hinp.
  destruct (is_constant inp h) as [[|]|e]; simpl; [| |done].
  - rewrite IH by lia. by rewrite tail_drop.
  - destruct inp as [l|r]; [|done].
    destruct (deref l h) as [v|e]; simpl; [|done].
    pose proof (lookup_drop gs k 0) as Hd. rewrite Nat.add_0_r in Hd. rewrite <- Hd.
    destruct (drop k gs) as [|g gs'] eqn:E; simpl; [done|].
    rewrite IH by lia. by rewrite <- (tail_drop gs k), E.
Qed.

Lemma chain_rule_unfold cls c inputs d h bv :
  backward cls c d = Ok bv ->
  chain_rule cls c (Some inputs) d h = chain_rule_from h inputs (as_iterable bv) [].
Proof.
  intros Hb. unfold chain_rule. rewrite Hb. simpl.
  rewrite chain_rule_loop_from by lia. by rewrite drop_0, firstn_all.
Qed.

Lemma chain_rule_spec_nil h inputs : chain_rule_spec h inputs [] = [].
Proof. unfold chain_rule_spec. by destruct inputs. Qed.

Lemma chain_rule_from_ok h inputs : forall gs result,
  forallb (allocated h) inputs = true ->
  (forall i x, inputs !! i = Some x -> tracked h x = true -> i < length gs) ->
  chain_rule_from h inputs gs result = Ok (result ++ chain_rule_spec h inputs gs).
Proof.
  induction inputs as [|inp rest IH]; intros gs result Ha Hlen.
  - by rewrite app_nil_r.
  - simpl in Ha. apply andb_true_iff in Ha as [Ha1 Ha2].
    assert (Hrest : forall i x, rest !! i = Some x -> tracked h x = true ->
                                i < length (tail gs)).
    { intros i x Hi Hx. specialize (Hlen (S i) x Hi Hx). destruct gs; simpl in *; lia. }
    pose proof (Hlen 0 inp eq_refl) as H0.
    simpl. destruct inp as [l|r]; simpl.
    + destruct (allocated_deref h l Ha1) as [v Hv].
      unfold tracked, is_constant in H0. unfold deref in *. rewrite Hv in *. simpl in *.
      destruct (history v) as [hist|] eqn:Eh.
      * specialize (H0 eq_refl). destruct gs as [|g gs']; [simpl in H0; lia|].
        simpl in *. rewrite IH by done. unfold chain_rule_spec. simpl.
        rewrite Hv, Eh. by rewrite <- app_assoc.
      * rewrite IH by done. destruct gs as [|g gs']; simpl.
        -- by rewrite !chain_rule_spec_nil.
        -- unfold chain_rule_spec. simpl. by rewrite Hv, Eh.
    + rewrite IH by done. destruct gs as [|g gs']; simpl.
      * by rewrite !chain_rule_spec_nil.
      * done.
Qed.

Lemma chain_rule_from_index_error h inputs : forall gs result i x,
  forallb (allocated h) inputs = true ->
  inputs !! i = Some x -> tracked h x = true -> length gs <= i ->
  chain_rule_from h inputs gs result = Raise IndexError.
Proof.
  induction inputs as [|inp rest IH]; intros gs result i x Ha Hi Hx Hlen; [done|].
  simpl in Ha. apply andb_true_iff in Ha as [Ha1 Ha2].
  destruct i as [|i]; simpl in Hi.
  - injection Hi as ->. apply tracked_spec in Hx as (l & v & hist & -> & Hv & Eh).
    simpl. unfold deref. rewrite Hv. simpl. rewrite Eh.
    destruct gs; [done|simpl in Hlen; lia].
  - assert (Ht : length (tail gs) <= i) by (destruct gs; simpl in *; lia).
    simpl. destruct inp as [l|r]; simpl; [|by eapply IH].
    destruct (allocated_deref h l Ha1) as [v Hv]. unfold deref. rewrite Hv. simpl.
    destruct (history v); [|by eapply IH].
    destruct gs as [|g gs']; [done|]. by eapply IH.
Qed.

Lemma chain_rule_spec_fst h inputs : forall gs,
  length inputs <= length gs ->
  (chain_rule_spec h inputs gs).*1 = List.filter (tracked h) inputs.
Proof.
  induction inputs as [|inp rest IH]; intros gs Hlen; [done|].
  destruct gs as [|g gs']; [simpl in Hlen; lia|]. simpl in Hlen.
  specialize (IH gs' ltac:(lia)).
  unfold chain_rule_spec, tracked, is_constant, deref in *. simpl.
  destruct inp as [l|r]; simpl; [|done].
  destruct (h !! l) as [v|]; simpl; [|done].
  destruct (history v); simpl; [|done]. by f_equal.
Qed.

(** C3 (as the code has it).  [chain_rule] does not compare the number
    of gradients with the number of inputs.  With [backward]'s result
    taken as a sequence, it reads the gradient at a position only when
    the input there is not a constant: the call succeeds whenever every
    such position lies within the gradients, whatever the two lengths
    are, and raises [IndexError] as soon as one does not. *)
Theorem chain_rule_arity cls c inputs d h bv :
  backward cls c d = Ok bv ->
  forallb (allocated h) inputs = true ->
  ((forall i x, inputs !! i = Some x -> tracked h x = true ->
                i < length (as_iterable bv)) ->
   chain_rule cls c (Some inputs) d h
   = Ok (chain_rule_spec h inputs (as_iterable bv))) /\
  ((exists i x, inputs !! i = Some x /\ tracked h x = true /\
                length (as_iterable bv) <= i) ->
   chain_rule cls c (Some inputs) d h = Raise IndexError).
Proof.
  intros Hb Ha. rewrite (chain_rule_unfold _ _ _ _ _ _ Hb). split.
  - intros Hlen. by rewrite chain_rule_from_ok.
  - intros (i & x & Hi & Hx & Hlen). by eapply chain_rule_from_index_error.
Qed.

(** C3, refuted as stated: [add.backward] returns two gradients; with one
    recorded input [chain_rule] returns normally and the second gradient
    is ignored.  [scale.backward] returns one gradient; with two
    recorded inputs, the second a raw number, [chain_rule] returns
    normally too. *)
Lemma chain_rule_arity_counterexample :
  backward add None 1%float = Ok (Seq [1%float; 1%float]) /\
  length [1%float; 1%float] <> length [VVar 0] /\
  chain_rule add None (Some [VVar 0]) 1%float one_leaf_store
  = Ok [(VVar 0, 1%float)] /\
  backward (scale 2) None 1%float = Ok (Seq [2%float]) /\
  length [2%float] <> length [VVar 0; VRaw 5%float] /\
  chain_rule (scale 2) None (Some [VVar 0; VRaw 5%float]) 1%float one_leaf_store
  = Ok [(VVar 0, 2%float)].
Proof. repeat apply conj; try reflexivity; simpl; lia. Qed.

Lemma chain_rule_arity_witness :
  chain_rule add None (Some [VVar 0]) 1%float one_leaf_store
  = Ok (chain_rule_spec one_leaf_store [VVar 0] [1%float; 1%float]) /\
  chain_rule (scale 2) None (Some [VRaw 5%float; VVar 0]) 1%float one_leaf_store
  = Raise IndexError.
Proof.
  split.
  - apply (chain_rule_arity add None [VVar 0] 1%float one_leaf_store
             (Seq [1%float; 1%float]) eq_refl eq_refl).
    intros [|i] x Hi Hx; simpl in *; [lia|discriminate].
  - apply (chain_rule_arity (scale 2) None [VRaw 5%float; VVar 0] 1%float one_leaf_store
             (Seq [2%float]) eq_refl eq_refl).
    exists 1, (VVar 0). repeat split. simpl. lia.
Defined.

Lemma chain_rule_spec_elem h inputs gs x g :
  (x, g) ∈ chain_rule_spec h inputs gs <->
  exists i l v gi, inputs !! i = Some x /\ gs !! i = Some gi /\ x = VVar l /\
                   h !! l = Some v /\ history v <> None /\ g = expand v gi.
Proof.
  unfold chain_rule_spec. rewrite list_elem_of_omap. split.
  - intros ([x' gi] & Hin & Hf). apply elem_of_lookup_zip_with in Hin
      as (i & y & z & [= -> ->] & Hy & Hz). simpl in Hf.
    destruct y as [l|r]; [|done]. destruct (h !! l) as [v|] eqn:Hv; [|done].
    destruct (history v) eqn:Eh; [|done]. injection Hf as <- <-.
    exists i, l, v, z. repeat split; try done. by rewrite Eh.
  - intros (i & l & v & gi & Hi & Hg & -> & Hv & Eh & ->).
    exists (VVar l, gi). split.
    + apply elem_of_lookup_zip_with. eauto 8.
    + simpl. rewrite Hv. by destruct (history v).
Qed.

(** C7. When [backward] returns a gradient for every input, [chain_rule]
    returns the pairs (operand, contribution) in the order of the inputs
    with the constants removed: a raw number is dropped, a variable whose
    history is [None] is dropped, a variable with a history (a tracked
    leaf as well) is kept, and the contribution of a pair is [expand] of
    the gradient at the position of its input. *)
Theorem chain_rule_mirrors_inputs cls c inputs d h bv :
  backward cls c d = Ok bv ->
  forallb (allocated h) inputs = true ->
  length inputs <= length (as_iterable bv) ->
  chain_rule cls c (Some inputs) d h
  = Ok (chain_rule_spec h inputs (as_iterable bv)) /\
  (chain_rule_spec h inputs (as_iterable bv)).*1 = List.filter (tracked h) inputs /\
  (forall r, tracked h (VRaw r) = false) /\
  (forall l v, h !! l = Some v ->
     tracked h (VVar l) = match history v with Some _ => true | None => false end) /\
  (forall x g, (x, g) ∈ chain_rule_spec h inputs (as_iterable bv) <->
     exists i l v gi, inputs !! i = Some x /\ as_iterable bv !! i = Some gi /\
       x = VVar l /\ h !! l = Some v /\ history v <> None /\ g = expand v gi).
Proof.
  intros Hb Ha Hlen. repeat apply conj.
  - rewrite (chain_rule_unfold _ _ _ _ _ _ Hb). apply chain_rule_from_ok; [done|].
    intros i x Hi _. apply lookup_lt_Some in Hi. lia.
  - by apply chain_rule_spec_fst.
  - done.
  - intros l v Hv. unfold tracked, is_constant, deref. rewrite Hv. simpl.
    by destruct (history v).
  - intros x g. apply chain_rule_spec_elem.
Qed.

Lemma chain_rule_mirrors_inputs_witness :
  chain_rule add None (Some [VVar 0; VVar 1]) 1%float mixed_store
  = Ok [(VVar 1, 1%float)].
Proof.
  apply (chain_rule_mirrors_inputs add None [VVar 0; VVar 1] 1%float mixed_store
           (Seq [1%float; 1%float]) eq_refl eq_refl).
  simpl. lia.
Defined.

(** ** apply *)

Lemma used_erased_lookup h h' l v :
  used_erased h' = used_erased h -> h !! l = Some v ->
  exists v', h' !! l = Some v' /\ set_used 0 v' = set_used 0 v.
Proof.
  intros He Hl. assert (Hx : used_erased h' !! l = Some (set_used 0 v)).
  { rewrite He. unfold used_erased. by rewrite list_lookup_fmap, Hl. }
  unfold used_erased in Hx. rewrite list_lookup_fmap in Hx.
  destruct (h' !! l) as [v'|]; [|done]. exists v'. split; [done|].
  simpl in Hx. congruence.
Qed.

Lemma used_erased_length h h' :
  used_erased h' = used_erased h -> length h' = length h.
Proof.
  intros He. apply (f_equal length) in He. unfold used_erased in He.
  by rewrite !length_fmap in He.
Qed.

Lemma set_used_fields n v v' :
  set_used n v' = set_used n v ->
  history v' = history v /\ value v' = value v /\ unique_id v' = unique_id v /\
  _derivative v' = _derivative v.
Proof. intros [= -> -> -> _ ->]. done. Qed.

Lemma used_erased_store h l v n :
  h !! l = Some v -> used_erased (<[l := set_used n v]> h) = used_erased h.
Proof.
  intros Hl. unfold used_erased. rewrite list_fmap_insert.
  apply list_insert_id. by rewrite list_lookup_fmap, Hl.
Qed.

Lemma used_erased_tracked h h' x :
  used_erased h' = used_erased h -> allocated h x = true -> tracked h' x = tracked h x.
Proof.
  intros He Ha. destruct x as [l|r]; [|done].
  destruct (allocated_deref _ _ Ha) as [v Hv].
  destruct (used_erased_lookup _ _ _ _ He Hv) as (v' & Hv' & Hf).
  apply set_used_fields in Hf as (Hh & _).
  unfold tracked, is_constant, deref. rewrite Hv, Hv'. simpl. by rewrite Hh.
Qed.

(** The first loop of [apply]: the raw payloads in order, [need_grad]
    set as soon as an operand has a history, and only [used] changed. *)
Lemma apply_scan h0 vals : forall s raws ng,
  used_erased (heap s) = used_erased h0 ->
  forallb (allocated h0) vals = true ->
  exists s1,
    foldM apply_operand (raws, ng) vals s
    = (Ok (raws ++ map (raw_val h0) vals, ng || existsb (tracked h0) vals), s1) /\
    used_erased (heap s1) = used_erased h0 /\
    variable_count s1 = variable_count s.
Proof.
  induction vals as [|x vals IH]; intros s raws ng He Ha.
  - exists s. simpl. by rewrite app_nil_r, orb_false_r.
  - simpl in Ha. apply andb_true_iff in Ha as [Ha1 Ha2].
    destruct x as [l|r].
    + destruct (allocated_deref _ _ Ha1) as [v0 Hv0].
      destruct (used_erased_lookup _ _ _ _ He Hv0) as (v & Hv & Hf).
      apply set_used_fields in Hf as (Hh & Hval & _).
      set (s' := {| variable_count := variable_count s;
                    heap := <[l := set_used (used v + 1) v]> (heap s) |}).
      destruct (IH s' (raws ++ [value v])
                  (match history v with Some _ => true | None => ng end))
        as (s1 & Hrun & He1 & Hc1); [|done|].
      { simpl. by rewrite used_erased_store. }
      exists s1. split; [|done].
      simpl. unfold bindM at 1. unfold bindM at 1. unfold liftR, deref. rewrite Hv.
      unfold bindM at 1. unfold store, ret. fold s'. rewrite Hrun.
      unfold tracked, is_constant, deref. rewrite Hv0. simpl.
      rewrite <- app_assoc, Hval, <- Hh. simpl.
      by destruct (history v), ng.
    + destruct (IH s (raws ++ [r]) ng He Ha2) as (s1 & Hrun & He1 & Hc1).
      exists s1. split; [|done].
      simpl. unfold bindM at 1. unfold ret. rewrite Hrun.
      by rewrite <- app_assoc.
Qed.

(** What [apply] returns when [forward] succeeds and its result passes
    the type test. *)
Lemma apply_run cls vals s c1 c :
  forallb (allocated (heap s)) vals = true ->
  forward cls (Context_init (negb (existsb (tracked (heap s)) vals)))
          (map (raw_val (heap s)) vals) = Ok (c1, c) ->
  data_type cls c = true ->
  exists s1,
    foldM apply_operand ([], false) vals s
    = (Ok (map (raw_val (heap s)) vals, existsb (tracked (heap s)) vals), s1) /\
    used_erased (heap s1) = used_erased (heap s) /\
    variable_count s1 = variable_count s /\
    apply cls vals s
    = (Ok (length (heap s)),
       {| variable_count := variable_count s + 1;
          heap := heap s1 ++
            [new_node s (data cls c)
               (if existsb (tracked (heap s)) vals
                then Some {| last_fn := Some cls; ctx := Some c1; inputs := Some vals |}
                else None)] |}).
Proof.
  intros Ha Hf Ht.
  destruct (apply_scan (heap s) vals s [] false eq_refl Ha) as (s1 & Hrun & He & Hc).
  simpl in Hrun. exists s1. repeat split; try done.
  unfold apply, bindM. rewrite Hrun, Hf, Ht.
  unfold variable, Variable_init, new_node.
  by rewrite Hc, (used_erased_length _ _ He).
Qed.

Lemma saves_from_no_grad c0 saves : no_grad c0 = true -> saves_from c0 saves = c0.
Proof.
  intros H. unfold saves_from. induction saves as [|x saves IH]; [done|].
  simpl. unfold save_for_backward at 2. by rewrite H.
Qed.

(** C4. When no operand is a variable with a history, [apply] (its
    [forward] succeeding with a result of the declared type) returns a
    node whose history is [None], and [saved_values] on the context of
    the call, which was built with [no_grad] set, fails with the
    assertion "Doesn't require grad", also after any calls of
    [save_for_backward]; the node gets a [History] exactly when some
    operand is a variable with a history. *)
Theorem apply_history cls vals s c1 c :
  forallb (allocated (heap s)) vals = true ->
  forward cls (Context_init (negb (existsb (tracked (heap s)) vals)))
          (map (raw_val (heap s)) vals) = Ok (c1, c) ->
  data_type cls c = true ->
  exists l s' v,
    apply cls vals s = (Ok l, s') /\ heap s' !! l = Some v /\
    (existsb (tracked (heap s)) vals = false ->
       history v = None /\
       Context_init (negb (existsb (tracked (heap s)) vals)) = Context_init true /\
       saved_values (Context_init true)
         = Raise (AssertionError "Doesn't require grad") /\
       forall saves, c1 = saves_from (Context_init true) saves ->
         saved_values c1 = Raise (AssertionError "Doesn't require grad")) /\
    (existsb (tracked (heap s)) vals = true ->
       history v = Some {| last_fn := Some cls; ctx := Some c1; inputs := Some vals |}) /\
    (history v <> None <-> existsb (tracked (heap s)) vals = true).
Proof.
  intros Ha Hf Ht.
  destruct (apply_run cls vals s c1 c Ha Hf Ht) as (s1 & _ & He & _ & Hrun).
  eexists _, _, _. split; [exact Hrun|]. simpl.
  rewrite <- (used_erased_length _ _ He). split; [apply list_lookup_middle; done|].
  simpl. destruct (existsb (tracked (heap s)) vals); repeat split; try done.
  intros saves ->. by rewrite saves_from_no_grad.
Qed.

Lemma apply_history_witness :
  exists l s' v,
    apply add [VVar 0; VRaw 2%float] mixed_state = (Ok l, s') /\
    heap s' !! l = Some v /\ history v = None /\ value v = 9%float.
Proof.
  destruct (apply_history add [VVar 0; VRaw 2%float] mixed_state
              (Context_init true) 9%float eq_refl eq_refl eq_refl)
    as (l & s' & v & Hrun & Hv & Hconst & _).
  exists l, s', v. repeat split; try done.
  - by apply Hconst.
  - vm_compute in Hrun. injection Hrun as <- <-. vm_compute in Hv. by injection Hv as <-.
Defined.

(** ** requires_grad_ *)

(** C10. [requires_grad_(val)] does the same whatever [val] is: it sets
    the history of the variable to an empty [History].  From then on
    the variable is not a constant, and an [apply] over operands that
    include it ends its first loop with [need_grad] true and attaches a
    [History] to its result. *)
Theorem requires_grad_ignores_val self val s v :
  heap s !! self = Some v ->
  exists s',
    requires_grad_ self val s = (Ok tt, s') /\
    requires_grad_ self true s = (Ok tt, s') /\
    requires_grad_ self false s = (Ok tt, s') /\
    heap s' !! self = Some (set_history (Some History_init) v) /\
    is_constant (VVar self) (heap s') = Ok false /\
    forall vals,
      VVar self ∈ vals ->
      forallb (allocated (heap s')) vals = true ->
      (exists raw_vals s1,
         foldM apply_operand ([], false) vals s' = (Ok (raw_vals, true), s1)) /\
      (forall cls c1 c,
         forward cls (Context_init false) (map (raw_val (heap s')) vals) = Ok (c1, c) ->
         data_type cls c = true ->
         exists l s2 v2,
           apply cls vals s' = (Ok l, s2) /\ heap s2 !! l = Some v2 /\
           history v2
           = Some {| last_fn := Some cls; ctx := Some c1; inputs := Some vals |}).
Proof.
  intros Hv.
  assert (Hrun : forall b, requires_grad_ self b s
            = (Ok tt, {| variable_count := variable_count s;
                         heap := <[self := set_history (Some History_init) v]> (heap s) |})).
  { intros b. unfold requires_grad_, bindM, liftR, deref. by rewrite Hv. }
  eexists. split; [apply Hrun|]. split; [apply Hrun|]. split; [apply Hrun|]. simpl.
  assert (Hl : <[self := set_history (Some History_init) v]> (heap s) !! self
               = Some (set_history (Some History_init) v)).
  { apply list_lookup_insert_eq. by eapply lookup_lt_Some. }
  split; [done|]. split.
  { unfold is_constant, deref. by rewrite Hl. }
  intros vals Hin Ha.
  set (s' := {| variable_count := variable_count s;
                heap := <[self := set_history (Some History_init) v]> (heap s) |}) in *.
  assert (Hng : existsb (tracked (heap s')) vals = true).
  { apply existsb_exists. exists (VVar self). split; [by apply list_elem_of_In|].
    unfold tracked, is_constant, deref. simpl. by rewrite Hl. }
  split.
  - destruct (apply_scan (heap s') vals s' [] false eq_refl Ha) as (s1 & Hscan & _).
    rewrite Hng in Hscan. eauto.
  - intros cls c1 c Hf Ht.
    destruct (apply_run cls vals s' c1 c Ha) as (s1 & _ & He & _ & Happ);
      [by rewrite Hng|done|].
    rewrite Hng in Happ. eexists _, _, _. split; [exact Happ|].
    apply used_erased_length in He. cbn [heap]. fold (heap s'). rewrite <- He.
    split; [by apply list_lookup_middle|done].
Qed.

Lemma requires_grad_ignores_val_witness :
  exists s',
    requires_grad_ 0 false mixed_state = (Ok tt, s') /\
    is_constant (VVar 0) mixed_store = Ok true /\
    is_constant (VVar 0) (heap s') = Ok false.
Proof.
  destruct (requires_grad_ignores_val 0 false mixed_state
              {| history := None; _derivative := None; unique_id := "Variable2";
                 name := "Variable2"; used := 0; value := 7%float |} eq_refl)
    as (s' & Hrun & _ & _ & _ & Hc & _).
  exists s'. repeat split; done.
Defined.

(** ** backpropagate *)

(** The two ways a turn of the loop can end normally: a leaf received
    its entry of the dictionary, or the operands [chain_rule] returned
    were recorded and queued. *)
Lemma bp_iteration_ok Variable_1 queue dict_deriv s queue' dict_deriv' s' :
  bp_iteration Variable_1 queue dict_deriv s = (Ok (queue', dict_deriv'), s') ->
  exists l v d,
    Variable_1 = VVar l /\ heap s !! l = Some v /\
    dict_get dict_deriv (unique_id v) = Ok d /\
    ((is_leaf v = Ok true /\ queue' = queue /\ dict_deriv' = dict_deriv /\
      s' = {| variable_count := variable_count s;
              heap := <[l := set_derivative
                               (Some (match _derivative v with
                                      | None => zeros
                                      | Some d0 => d0
                                      end + d)%float) v]> (heap s) |}) \/
     (is_leaf v = Ok false /\ s' = s /\
      exists hist f v_d,
        history v = Some hist /\ last_fn hist = Some f /\
        chain_rule f (ctx hist) (inputs hist) d (heap s) = Ok v_d /\
        foldR (bp_record (heap s)) (queue, dict_deriv) v_d = Ok (queue', dict_deriv'))).
Proof.
  unfold bp_iteration. destruct Variable_1 as [l|r]; [|discriminate].
  unfold bindM, liftR, liftE, deref.
  destruct (heap s !! l) as [v|] eqn:Hv; [|discriminate].
  destruct (is_leaf v) as [[|]|e] eqn:Hleaf; [| |discriminate].
  - destruct (dict_get dict_deriv (unique_id v)) as [d|e] eqn:Hd; [|discriminate].
    unfold accumulate_derivative, bindM, liftR, deref, store, ret. rewrite Hv.
    intros [= <- <- <-]. exists l, v, d. repeat split; try done. by left.
  - destruct (history v) as [hist|] eqn:Hh; [|discriminate].
    destruct (last_fn hist) as [f|] eqn:Hf; [|discriminate].
    unfold bindM, liftR, liftE.
    destruct (dict_get dict_deriv (unique_id v)) as [d|e] eqn:Hd; [|discriminate].
    destruct (chain_rule f (ctx hist) (inputs hist) d (heap s)) as [v_d|e] eqn:Hc;
      [|discriminate].
    intros [= Hfold <-]. exists l, v, d. repeat split; try done. right.
    repeat split; try done. exists hist, f, v_d. by rewrite Hfold.
Qed.

(** A turn that raises has changed nothing. *)
Lemma bp_iteration_raise Variable_1 queue dict_deriv s e s' :
  bp_iteration Variable_1 queue dict_deriv s = (Raise e, s') -> s' = s.
Proof.
  unfold bp_iteration. destruct Variable_1 as [l|r]; [|by intros [= _ <-]].
  unfold bindM, liftR, liftE, deref, throw.
  destruct (heap s !! l) as [v|] eqn:Hv; [|by intros [= _ <-]].
  destruct (is_leaf v) as [[|]|e'] eqn:Hleaf; [| |by intros [= _ <-]].
  - destruct (dict_get dict_deriv (unique_id v)) as [d|e'] eqn:Hd; [|by intros [= _ <-]].
    unfold accumulate_derivative, bindM, liftR, deref, store, ret. by rewrite Hv.
  - destruct (history v) as [hist|] eqn:Hh; [|by intros [= _ <-]].
    destruct (last_fn hist) as [f|] eqn:Hf; [|by intros [= _ <-]].
    unfold bindM, liftR, liftE.
    destruct (dict_get dict_deriv (unique_id v)) as [d|e'] eqn:Hd; [|by intros [= _ <-]].
    destruct (chain_rule f (ctx hist) (inputs hist) d (heap s)) as [v_d|e'] eqn:Hc;
      by intros [= _ <-].
Qed.

(** [chain_rule] returns only operands that are not constants. *)
Lemma chain_rule_at_tracked inputs gs h idxs : forall result r,
  foldR (chain_rule_at inputs gs h) result idxs = Ok r ->
  Forall (fun p => tracked h p.1 = true) result ->
  Forall (fun p => tracked h p.1 = true) r.
Proof.
  induction idxs as [|i idxs IH]; intros result r Hrun Hres.
  - by injection Hrun as <-.
  - simpl in Hrun. unfold chain_rule_at at 1 in Hrun.
    destruct (inputs !! i) as [inp|]; [|done]. simpl in Hrun.
    destruct (is_constant inp h) as [[|]|e] eqn:Hc; simpl in Hrun; [by eapply IH| |done].
    destruct inp as [l|x]; [|done].
    destruct (deref l h) as [v|e]; [|done]. simpl in Hrun.
    destruct (gs !! i) as [g|]; [|done]. simpl in Hrun.
    eapply IH; [exact Hrun|]. apply Forall_app. split; [done|].
    constructor; [|done]. simpl. unfold tracked. by rewrite Hc.
Qed.

Lemma chain_rule_tracked cls c inputs d h r :
  chain_rule cls c inputs d h = Ok r -> Forall (fun p => tracked h p.1 = true) r.
Proof.
  unfold chain_rule. destruct (backward cls c d) as [bv|e]; [|done]. simpl.
  destruct inputs as [inputs|]; [|done]. intros Hrun.
  eapply chain_rule_at_tracked; [exact Hrun|constructor].
Qed.

(** The inner loop appends to the queue the operands [chain_rule]
    returned, in order. *)
Lemma bp_record_queue h v_d : forall queue dict_deriv queue' dict_deriv',
  foldR (bp_record h) (queue, dict_deriv) v_d = Ok (queue', dict_deriv') ->
  queue' = queue ++ v_d.*1.
Proof.
  induction v_d as [|[x g] v_d IH]; intros queue dict_deriv queue' dict_deriv' Hrun.
  - injection Hrun as <- <-. by rewrite app_nil_r.
  - simpl in Hrun. destruct x as [l|r]; [|done].
    destruct (deref l h) as [v|e]; [|done]. simpl in Hrun.
    apply IH in Hrun. rewrite Hrun. by rewrite <- app_assoc.
Qed.

Lemma bp_frame_refl s : bp_frame s s.
Proof. repeat split. intros l v0 Hl. eauto. Qed.

Lemma bp_frame_tracked s0 s x : bp_frame s0 s -> tracked (heap s) x = tracked (heap s0) x.
Proof.
  intros (_ & Hlen & Hf). destruct x as [l|r]; [|done].
  unfold tracked, is_constant, deref.
  destruct (heap s0 !! l) as [v0|] eqn:Hv0.
  - destruct (Hf l v0 Hv0) as (v & Hv & Heq & _). rewrite Hv. simpl.
    by injection Heq as ->.
  - apply lookup_ge_None in Hv0. rewrite <- Hlen in Hv0.
    apply lookup_ge_None in Hv0. by rewrite Hv0.
Qed.

Lemma tracked_is_constant h x : tracked h x = true <-> is_constant x h = Ok false.
Proof. unfold tracked. destruct (is_constant x h) as [[|]|e]; split; congruence. Qed.

Lemma is_leaf_history v b : is_leaf v = Ok b -> history v <> None.
Proof. unfold is_leaf. by destruct (history v). Qed.

(** A turn of the loop keeps the frame and queues only operands that
    are not constants. *)
Lemma bp_iteration_frame s0 Variable_1 queue dict_deriv s queue' dict_deriv' s' :
  bp_frame s0 s ->
  bp_iteration Variable_1 queue dict_deriv s = (Ok (queue', dict_deriv'), s') ->
  bp_frame s0 s' /\
  exists added, queue' = queue ++ added /\
                Forall (fun x => tracked (heap s0) x = true) added.
Proof.
  intros Hframe Hrun.
  apply bp_iteration_ok in Hrun
    as (l & v & d & -> & Hv & Hd & [(Hleaf & -> & -> & ->)|(Hleaf & -> & Hchain)]).
  - split; [|exists []; by rewrite app_nil_r].
    destruct Hframe as (Hcount & Hlen & Hf).
    repeat split; simpl; [done|by rewrite length_insert|].
    intros l0 v0 Hv0. destruct (Hf l0 v0 Hv0) as (v1 & Hv1 & Heq & Hconst).
    destruct (decide (l0 = l)) as [->|Hne].
    + rewrite Hv in Hv1. injection Hv1 as <-.
      eexists. split; [apply list_lookup_insert_eq; by eapply lookup_lt_Some|].
      split; [exact Heq|]. intros Hnone.
      apply is_leaf_history in Hleaf. injection Heq as Hh _. congruence.
    + exists v1. by rewrite list_lookup_insert_ne.
  - split; [done|].
    destruct Hchain as (hist & f & v_d & _ & _ & Hc & Hfold).
    exists (v_d.*1). split; [by eapply bp_record_queue|].
    apply chain_rule_tracked in Hc. apply Forall_fmap.
    eapply Forall_impl; [exact Hc|]. intros p Hp. simpl.
    by rewrite <- (bp_frame_tracked s0 s).
Qed.

(** What holds at the head of every turn: the frame, and a queue made
    of operands that are not constants, unless the loop has not started
    and the queue is the root alone. *)
Lemma bp_reach_inv variable deriv s0 queue dict_deriv s :
  bp_reach variable deriv s0 queue dict_deriv s ->
  bp_frame s0 s /\
  (Forall (fun x => tracked (heap s0) x = true) queue \/
   (queue = [VVar variable] /\ s = s0)).
Proof.
  induction 1 as [v Hv|V queue dict_deriv s queue' dict_deriv' s' Hreach [Hframe Hq] Hrun].
  - split; [apply bp_frame_refl|by right].
  - destruct (bp_iteration_frame _ _ _ _ _ _ _ _ Hframe Hrun)
      as (Hframe' & added & -> & Hadded).
    split; [done|]. left. apply Forall_app. split; [|done].
    destruct Hq as [Hq|[Hq _]].
    + by apply Forall_cons in Hq as [_ Hq].
    + injection Hq as _ ->. constructor.
Qed.

(** The state [backpropagate] ends in, by return or by exception, is
    one the loop went through. *)
Lemma bp_while_reach variable deriv s0 fuel : forall queue dict_deriv s r s',
  bp_reach variable deriv s0 queue dict_deriv s ->
  bp_while fuel queue dict_deriv s = Some (r, s') ->
  exists queue' dict_deriv', bp_reach variable deriv s0 queue' dict_deriv' s'.
Proof.
  induction fuel as [|fuel IH]; intros queue dict_deriv s r s' Hreach Hrun.
  - destruct queue; [|done]. injection Hrun as _ <-. eauto.
  - destruct queue as [|V queue]; [injection Hrun as _ <-; eauto|].
    simpl in Hrun.
    destruct (bp_iteration V queue dict_deriv s) as [[[q d]|e] s1] eqn:Hit.
    + eapply IH; [|exact Hrun]. by eapply bp_reach_turn.
    + injection Hrun as _ <-. apply bp_iteration_raise in Hit as ->. eauto.
Qed.

(** C8. In a run of [backpropagate] a constant operand, a raw number or
    a variable whose history is [None], is never put on the queue: at
    the head of every turn the queue holds only variables that have a
    history, the one exception being the root itself before the first
    turn.  And a variable whose history is [None] is left as it was,
    its derivative included, at every turn and in the state the call
    ends in. *)
Theorem backpropagate_skips_constants variable deriv s0 :
  (forall queue dict_deriv s,
     bp_reach variable deriv s0 queue dict_deriv s ->
     (forall x, x ∈ queue ->
        is_constant x (heap s0) = Ok false \/ (queue = [VVar variable] /\ s = s0)) /\
     (forall r, VRaw r ∈ queue -> False) /\
     (forall l v, heap s0 !! l = Some v -> history v = None ->
        heap s !! l = Some v)) /\
  (forall fuel r s',
     backpropagate fuel (VVar variable) deriv s0 = Some (r, s') ->
     forall l v, heap s0 !! l = Some v -> history v = None ->
       heap s' !! l = Some v /\ derivative_at l s' = derivative_at l s0).
Proof.
  assert (Hkeep : forall queue dict_deriv s,
            bp_reach variable deriv s0 queue dict_deriv s ->
            forall l v, heap s0 !! l = Some v -> history v = None ->
              heap s !! l = Some v).
  { intros queue dict_deriv s Hreach l v Hv Hnone.
    apply bp_reach_inv in Hreach as [(_ & _ & Hf) _].
    destruct (Hf l v Hv) as (v1 & Hv1 & _ & Hconst). by rewrite Hv1, Hconst. }
  split.
  - intros queue dict_deriv s Hreach. repeat split.
    + intros x Hx. destruct (bp_reach_inv _ _ _ _ _ _ Hreach) as [_ [Hq|Hq]]; [|by right].
      left. apply tracked_is_constant. rewrite Forall_forall in Hq. by apply Hq.
    + intros r Hr. destruct (bp_reach_inv _ _ _ _ _ _ Hreach) as [_ [Hq|[Hq _]]].
      * rewrite Forall_forall in Hq. by apply Hq in Hr.
      * rewrite Hq in Hr. by apply list_elem_of_singleton in Hr.
    + by eapply Hkeep.
  - intros fuel r s' Hrun l v Hv Hnone.
    assert (Hs' : heap s' !! l = Some v).
    { unfold backpropagate, deref in Hrun.
      destruct (heap s0 !! variable) as [v0|] eqn:Hv0.
      - eapply bp_while_reach in Hrun as (q & d & Hreach); [|by apply bp_reach_start].
        by eapply Hkeep.
      - by injection Hrun as _ <-. }
    split; [done|]. unfold derivative_at. by rewrite Hs', Hv.
Qed.

Lemma backpropagate_skips_constants_witness :
  exists s',
    backpropagate 3 (VVar 2) 1%float sum_state = Some (Ok tt, s') /\
    derivative_at 0 s' = derivative_at 0 sum_state /\
    derivative_at 0 s' = Some None /\
    derivative_at 1 s' = Some (Some 1%float).
Proof.
  eexists. split; [vm_compute; reflexivity|]. split; [|split; reflexivity].
  apply (proj2 (backpropagate_skips_constants 2 1%float sum_state) 3 (Ok tt) _ eq_refl 0
           {| history := None; _derivative := None; unique_id := "Variable2";
              name := "Variable2"; used := 1; value := 7%float |} eq_refl eq_refl).
Defined.

(** More turns allowed do not change what the loop computes. *)
Lemma bp_while_mono fuel : forall fuel' queue dict_deriv s r,
  fuel <= fuel' ->
  bp_while fuel queue dict_deriv s = Some r ->
  bp_while fuel' queue dict_deriv s = Some r.
Proof.
  induction fuel as [|fuel IH]; intros fuel' queue dict_deriv s r Hle Hrun.
  - destruct queue; [|done]. by destruct fuel'.
  - destruct fuel' as [|fuel']; [lia|].
    destruct queue as [|V queue]; [done|]. simpl in *.
    destruct (bp_iteration V queue dict_deriv s) as [[[q d]|e] s1]; [|done].
    apply IH; [lia|done].
Qed.

Lemma Variable_backward_mono fuel fuel' self d_output s r :
  fuel <= fuel' ->
  Variable_backward fuel self d_output s = Some r ->
  Variable_backward fuel' self d_output s = Some r.
Proof.
  unfold Variable_backward, backpropagate. intros Hle.
  destruct (deref self (heap s)); [|done]. by apply bp_while_mono.
Qed.

(** ** The scenarios *)

(** C5. [a = 2.0] tracked, [b = square(a)]: [backward(b)] with seed 1.0
    leaves [a.derivative == 4.0], and a second [backward(b)] with seed
    1.0 leaves [a.derivative == 8.0]: the derivative is kept between the
    calls and added to.  Two turns of the loop are enough each time. *)
Theorem square_backward_accumulates :
  exists a b s s1 s2,
    square_scenario initial_state = (Ok (a, b), s) /\
    derivative_at a s = Some None /\
    (forall fuel, 2 <= fuel -> Variable_backward fuel b None s = Some (Ok tt, s1)) /\
    (forall fuel, 2 <= fuel ->
       Variable_backward fuel b (Some 1%float) s = Some (Ok tt, s1)) /\
    derivative_at a s1 = Some (Some 4%float) /\
    (forall fuel, 2 <= fuel -> Variable_backward fuel b None s1 = Some (Ok tt, s2)) /\
    (forall fuel, 2 <= fuel ->
       Variable_backward fuel b (Some 1%float) s1 = Some (Ok tt, s2)) /\
    derivative_at a s2 = Some (Some 8%float).
Proof.
  eexists _, _, _, _, _. split; [vm_compute; reflexivity|].
  split; [reflexivity|].
  assert (H1 : Variable_backward 2 1 None (square_scenario initial_state).2
               = Some (Ok tt, _)) by (vm_compute; reflexivity).
  split; [intros fuel Hle; eapply Variable_backward_mono; [exact Hle|exact H1]|].
  split; [intros fuel Hle; eapply Variable_backward_mono; [exact Hle|exact H1]|].
  split; [reflexivity|].
  match type of H1 with _ = Some (_, ?s1) =>
    assert (H2 : Variable_backward 2 1 None s1 = Some (Ok tt, _))
      by (vm_compute; reflexivity)
  end.
  split; [intros fuel Hle; eapply Variable_backward_mono; [exact Hle|exact H2]|].
  split; [intros fuel Hle; eapply Variable_backward_mono; [exact Hle|exact H2]|].
  reflexivity.
Qed.

Lemma float_6_neq_5 : 6%float <> 5%float.
Proof.
  intros H. apply (f_equal (fun x => PrimFloat.eqb x 5%float)) in H. discriminate H.
Qed.

(** C1, on the code.  In the diamond [y = 2*x], [z = 3*x], [w = y + z]
    with [x] a tracked leaf, the two paths contribute 2.0 and 3.0 to
    [x], whose sum is 5.0.  [backward(w)] leaves [x.derivative == 6.0]:
    the inner loop assigns each contribution to the entry of the
    dictionary, replacing what is there, and queues [x] once for each
    path, so the contribution that arrived last is accumulated twice. *)
Theorem diamond_backward_overwrites :
  (forall h l v queue dict_deriv old g,
     h !! l = Some v -> dict_deriv !! unique_id v = Some old ->
     exists queue' dict_deriv',
       bp_record h (queue, dict_deriv) (VVar l, g) = Ok (queue', dict_deriv') /\
       dict_deriv' !! unique_id v = Some g) /\
  exists x w s s',
    diamond_scenario initial_state = (Ok (x, w), s) /\
    chain_rule (scale 2) None (Some [VVar x]) 1%float (heap s) = Ok [(VVar x, 2%float)] /\
    chain_rule (scale 3) None (Some [VVar x]) 1%float (heap s) = Ok [(VVar x, 3%float)] /\
    (2 + 3)%float = 5%float /\
    (forall fuel, 5 <= fuel -> Variable_backward fuel w None s = Some (Ok tt, s')) /\
    derivative_at x s' = Some (Some 6%float) /\
    derivative_at x s' <> Some (Some 5%float).
Proof.
  split.
  - intros h l v queue dict_deriv old g Hv _. eexists _, _. simpl. unfold deref.
    rewrite Hv. simpl. split; [reflexivity|]. apply lookup_insert_eq.
  - eexists _, _, _, _. split; [vm_compute; reflexivity|].
    do 3 (split; [reflexivity|]).
    assert (H1 : Variable_backward 5 3 None (diamond_scenario initial_state).2
                 = Some (Ok tt, _)) by (vm_compute; reflexivity).
    split; [intros fuel Hle; eapply Variable_backward_mono; [exact Hle|exact H1]|].
    split; [reflexivity|].
    intros H. apply float_6_neq_5. vm_compute in H. congruence.
Qed.

(** * Further properties *)

(** ** Tuples *)

(** X1. [wrap_tuple] undoes [unwrap_tuple] on every tuple of floats, and
    [unwrap_tuple] undoes [wrap_tuple] on every value but a one-element
    tuple, which comes back as its element. *)
Theorem wrap_unwrap_tuple :
  (forall xs, wrap_tuple (unwrap_tuple xs) = xs) /\
  (forall v, unwrap_tuple (wrap_tuple v) = v <-> forall x, v <> Seq [x]) /\
  (forall x, unwrap_tuple (wrap_tuple (Seq [x])) = One x).
Proof.
  repeat apply conj.
  - by intros [|x [|y xs]].
  - intros [x|[|x [|y xs]]]; simpl; split; try done.
    intros H. by destruct (H x).
  - done.
Qed.

(** ** Derivatives *)

(** X3. Whatever derivative a variable holds, after [zero_grad_()] (or
    [zero_derivative_()]) an accumulation of [val] leaves [0.0 + val],
    what it leaves on a variable that never had a derivative; nothing
    else in the store changes. *)
Theorem zero_grad_then_accumulate self val s v :
  heap s !! self = Some v ->
  (do _ <- zero_grad_ self; accumulate_derivative self val) s
  = (Ok tt, {| variable_count := variable_count s;
               heap := <[self := set_derivative (Some (0 + val)%float) v]> (heap s) |}) /\
  (do _ <- zero_derivative_ self; accumulate_derivative self val) s
  = (do _ <- zero_grad_ self; accumulate_derivative self val) s /\
  (_derivative v = None ->
   accumulate_derivative self val s
   = (do _ <- zero_grad_ self; accumulate_derivative self val) s).
Proof.
  intros Hv.
  assert (Hlt : self < length (heap s)) by (by eapply lookup_lt_Some).
  assert (H1 : (do _ <- zero_grad_ self; accumulate_derivative self val) s
    = (Ok tt, {| variable_count := variable_count s;
                 heap := <[self := set_derivative (Some (0 + val)%float) v]> (heap s) |})).
  { unfold zero_grad_, zero_derivative_, accumulate_derivative, bindM, liftR, deref.
    rewrite Hv. simpl. rewrite list_lookup_insert_eq by done.
    unfold store. simpl. by rewrite list_insert_insert_eq. }
  repeat apply conj; [done|done|].
  intros Hnone. rewrite H1.
  unfold accumulate_derivative, bindM, liftR, deref. rewrite Hv. simpl. by rewrite Hnone.
Qed.

Lemma zero_grad_then_accumulate_witness :
  exists s',
    (do _ <- zero_grad_ 0; accumulate_derivative 0 3%float)
      (accumulate_derivative 0 5%float (tracked_leaf 1%float initial_state).2).2
    = (Ok tt, s') /\
    derivative_at 0 s' = Some (Some 3%float).
Proof.
  eexists. split.
  - apply (zero_grad_then_accumulate 0 3%float
             (accumulate_derivative 0 5%float (tracked_leaf 1%float initial_state).2).2
             _ eq_refl).
  - reflexivity.
Defined.

(** ** apply: what happens to the operands and to the store *)

Lemma allocated_length h h' x : length h' = length h -> allocated h' x = allocated h x.
Proof. intros H. destruct x; simpl; [by rewrite H|done]. Qed.

Lemma forallb_allocated_length h h' vals :
  length h' = length h -> forallb (allocated h') vals = forallb (allocated h) vals.
Proof.
  intros H. induction vals as [|x vals IH]; [done|].
  simpl. by rewrite IH, (allocated_length h h' x H).
Qed.

(** The first loop of [apply] ends normally only when every operand
    refers to an object of the store. *)
Lemma apply_operands_allocated vals : forall s acc r s1,
  foldM apply_operand acc vals s = (Ok r, s1) ->
  forallb (allocated (heap s)) vals = true.
Proof.
  induction vals as [|x vals IH]; intros s [raws ng] r s1 Hrun; [done|].
  simpl in Hrun. unfold bindM, liftR, deref, store, ret in Hrun.
  destruct x as [l|x]; simpl.
  - destruct (heap s !! l) as [v|] eqn:Hv; [|done].
    rewrite bool_decide_eq_true_2 by (by eapply lookup_lt_Some). simpl.
    apply IH in Hrun. simpl in Hrun.
    by rewrite (forallb_allocated_length (heap s)) in Hrun by apply length_insert.
  - by apply IH in Hrun.
Qed.

(** The first loop of [apply] adds to [used] of each variable the number
    of operand positions that hold it. *)
Lemma apply_operands_used vals : forall s acc r s1,
  foldM apply_operand acc vals s = (Ok r, s1) ->
  forall l0 v0, heap s !! l0 = Some v0 ->
    heap s1 !! l0 = Some (set_used (used v0 + occurrences l0 vals) v0).
Proof.
  induction vals as [|x vals IH]; intros s [raws ng] r s1 Hrun l0 v0 Hv0.
  - injection Hrun as _ <-. unfold occurrences. simpl. rewrite Nat.add_0_r.
    by destruct v0.
  - simpl in Hrun. unfold bindM, liftR, deref, store, ret in Hrun.
    destruct x as [l|x].
    + destruct (heap s !! l) as [v|] eqn:Hv; [|done].
      destruct (decide (l = l0)) as [->|Hne].
      * rewrite Hv0 in Hv. injection Hv as <-.
        erewrite (IH _ _ _ _ Hrun); [|simpl; apply list_lookup_insert_eq;
                                         by eapply lookup_lt_Some].
        unfold occurrences. simpl. rewrite Nat.eqb_refl. simpl.
        f_equal. unfold set_used. simpl. f_equal. lia.
      * erewrite (IH _ _ _ _ Hrun); [|simpl; by rewrite list_lookup_insert_ne].
        unfold occurrences. simpl.
        by rewrite (proj2 (Nat.eqb_neq l l0) Hne).
    + by erewrite (IH _ _ _ _ Hrun).
Qed.

(** [apply] over operands of the store, by the outcome of [forward] and
    of the type test. *)
Lemma apply_cases cls vals s :
  forallb (allocated (heap s)) vals = true ->
  exists s1,
    foldM apply_operand ([], false) vals s
    = (Ok (map (raw_val (heap s)) vals, existsb (tracked (heap s)) vals), s1) /\
    used_erased (heap s1) = used_erased (heap s) /\
    variable_count s1 = variable_count s /\
    apply cls vals s
    = match forward cls (Context_init (negb (existsb (tracked (heap s)) vals)))
                    (map (raw_val (heap s)) vals) with
      | Raise e => (Raise e, s1)
      | Ok (c1, c) =>
          if data_type cls c
          then (Ok (length (heap s)),
                {| variable_count := variable_count s + 1;
                   heap := heap s1 ++
                     [new_node s (data cls c)
                        (if existsb (tracked (heap s)) vals
                         then Some {| last_fn := Some cls; ctx := Some c1;
                                      inputs := Some vals |}
                         else None)] |})
          else (Raise (AssertionError "Expected return typ"), s1)
      end.
Proof.
  intros Ha.
  destruct (apply_scan (heap s) vals s [] false eq_refl Ha) as (s1 & Hrun & He & Hc).
  simpl in Hrun. exists s1. repeat split; try done.
  unfold apply, bindM. rewrite Hrun.
  destruct (forward cls _ _) as [[c1 c]|e]; [|done].
  destruct (data_type cls c); [|done].
  unfold variable, Variable_init, new_node.
  by rewrite Hc, (used_erased_length _ _ He).
Qed.

Lemma apply_ok_allocated cls vals s l s' :
  apply cls vals s = (Ok l, s') -> forallb (allocated (heap s)) vals = true.
Proof.
  unfold apply. unfold bindM at 1.
  destruct (foldM apply_operand ([], false) vals s) as [[r|e] s1] eqn:Hrun; [|done].
  intros _. by eapply apply_operands_allocated.
Qed.

(** X4. A call of [apply] that returns has added one variable at the end
    of the store and advanced the counter by one; the new variable has
    no derivative, was never used, and is named after the new counter
    value.  Every variable that was there is as before but for [used],
    which grew by the number of times the variable occurs among the
    operands (twice in [f(x, x)]). *)
Theorem apply_counts_uses cls vals s l s' :
  apply cls vals s = (Ok l, s') ->
  l = length (heap s) /\
  length (heap s') = S (length (heap s)) /\
  variable_count s' = (variable_count s + 1)%N /\
  (forall l0 v0, heap s !! l0 = Some v0 ->
     heap s' !! l0 = Some (set_used (used v0 + occurrences l0 vals) v0)) /\
  (exists v, heap s' !! l = Some v /\ _derivative v = None /\ used v = 0 /\
             unique_id v = uid (variable_count s + 1) /\ name v = unique_id v).
Proof.
  intros Hrun. pose proof (apply_ok_allocated _ _ _ _ _ Hrun) as Ha.
  destruct (apply_cases cls vals s Ha) as (s1 & Hscan & He & Hc & Happ).
  rewrite Hrun in Happ.
  destruct (forward cls _ _) as [[c1 c]|e]; [|done].
  destruct (data_type cls c); [|done].
  injection Happ as -> ->. apply used_erased_length in He. simpl.
  repeat apply conj; try done.
  - rewrite length_app. simpl. lia.
  - intros l0 v0 Hv0. rewrite lookup_app_l by (rewrite He; by eapply lookup_lt_Some).
    by eapply apply_operands_used.
  - eexists. rewrite <- He. split; [by apply list_lookup_middle|done].
Qed.

Lemma apply_counts_uses_witness :
  (used <$> heap (tracked_leaf 1%float initial_state).2 !! 0) = Some 0 /\
  (used <$> heap (apply add [VVar 0; VVar 0] (tracked_leaf 1%float initial_state).2).2 !! 0)
  = Some 2.
Proof.
  split; [reflexivity|].
  destruct (apply_counts_uses add [VVar 0; VVar 0] (tracked_leaf 1%float initial_state).2
              1 (apply add [VVar 0; VVar 0] (tracked_leaf 1%float initial_state).2).2
              eq_refl) as (_ & _ & _ & Hused & _).
  by rewrite (Hused 0 _ eq_refl).
Defined.



(** ** What the operations keep *)

(** A projection of the variables that does not read [used] is the same
    on two stores that differ in [used] only. *)
Lemma used_erased_fmap {A} (f : Var -> A) h h' :
  (forall n v, f (set_used n v) = f v) ->
  used_erased h' = used_erased h -> f <$> h' = f <$> h.
Proof.
  intros Hf He.
  assert (Hx : forall k, f <$> k = f <$> used_erased k).
  { intros k. unfold used_erased. rewrite <- list_fmap_compose.
    apply list_fmap_ext. intros i x _. simpl. by rewrite Hf. }
  by rewrite (Hx h'), (Hx h), He.
Qed.

(** A projection of the variables that does not read the derivative is
    the same before and after a run of [backpropagate]. *)
Lemma bp_frame_fmap {A} (f : Var -> A) s0 s :
  (forall d v, f (set_derivative d v) = f v) ->
  bp_frame s0 s -> f <$> heap s = f <$> heap s0.
Proof.
  intros Hf (_ & Hlen & Hfr). apply list_eq. intros i. rewrite !list_lookup_fmap.
  destruct (heap s0 !! i) as [v0|] eqn:Hv0.
  - destruct (Hfr i v0 Hv0) as (v & Hv & Heq & _). rewrite Hv. simpl.
    by rewrite <- (Hf None v), Heq, Hf.
  - apply lookup_ge_None in Hv0. rewrite <- Hlen in Hv0.
    apply lookup_ge_None in Hv0. by rewrite Hv0.
Qed.

(** The state a call of [backpropagate] ends in differs from the one it
    started in by derivatives only. *)
Lemma backpropagate_frame fuel x deriv s r s' :
  backpropagate fuel x deriv s = Some (r, s') -> bp_frame s s'.
Proof.
  unfold backpropagate, deref. destruct x as [l|x].
  - destruct (heap s !! l) as [v|] eqn:Hv.
    + intros Hrun. eapply bp_while_reach in Hrun as (q & d & Hreach);
        [|by apply bp_reach_start].
      by apply bp_reach_inv in Hreach as [Hf _].
    + intros [= _ <-]. apply bp_frame_refl.
  - intros [= _ <-]. apply bp_frame_refl.
Qed.

Lemma uid_inj k k' : uid k = uid k' -> k = k'.
Proof.
  unfold uid. intros H. apply (inj (String.app "Variable")) in H.
  by apply (inj pretty) in H.
Qed.

Lemma ids_ok_same s s' :
  variable_count s' = variable_count s ->
  unique_id <$> heap s' = unique_id <$> heap s ->
  ids_ok s -> ids_ok s'.
Proof. unfold ids_ok. by intros -> ->. Qed.

Lemma ids_ok_new s v :
  unique_id v = uid (variable_count s + 1) ->
  ids_ok s ->
  ids_ok {| variable_count := variable_count s + 1; heap := heap s ++ [v] |} /\
  uid (variable_count s + 1) ∉ unique_id <$> heap s.
Proof.
  intros Hid [Hnames Hnodup].
  assert (Hfresh : uid (variable_count s + 1) ∉ unique_id <$> heap s).
  { intros (i & Hi)%list_elem_of_lookup_1. apply Hnames in Hi as (k & Hk & Hle).
    apply uid_inj in Hk. lia. }
  split; [|done]. split; simpl.
  - intros i id Hi. rewrite fmap_app in Hi. apply lookup_app_Some in Hi as [Hi|[_ Hi]].
    + apply Hnames in Hi as (k & -> & Hle). exists k. split; [done|lia].
    + simpl in Hi. apply list_lookup_singleton_Some in Hi as [_ <-].
      exists (variable_count s + 1)%N. split; [done|lia].
  - rewrite fmap_app. apply NoDup_app. repeat split; [done| |apply NoDup_singleton].
    intros x Hx Hx'. simpl in Hx'. apply list_elem_of_singleton in Hx' as ->.
    rewrite Hid in Hx. by apply Hfresh.
Qed.

(** X2. Identifiers are never reused.  Every variable of the store is
    named ["Variable" + str(k)] for a counter value [k] already passed,
    and no two variables have the same name: this holds at the start
    and is kept by [Variable.__init__] (whose new name no earlier
    variable has), by [apply], by [requires_grad_] and by
    [backpropagate]. *)
Theorem unique_ids_kept :
  ids_ok initial_state /\
  (forall s history name value,
     ids_ok s ->
     ids_ok (Variable_init history name value s).2 /\
     (variable_count s < variable_count (Variable_init history name value s).2)%N /\
     forall v, v ∈ heap s -> unique_id v <> uid (variable_count s + 1)) /\
  (forall s cls vals l s', ids_ok s -> apply cls vals s = (Ok l, s') -> ids_ok s') /\
  (forall s self val, ids_ok s -> ids_ok (requires_grad_ self val s).2) /\
  (forall s fuel x deriv r s',
     ids_ok s -> backpropagate fuel x deriv s = Some (r, s') -> ids_ok s').
Proof.
  split; [|split; [|split; [|split]]].
  - split; simpl; [by intros i id|constructor].
  - intros s history name value Hok. unfold Variable_init. simpl.
    destruct (ids_ok_new s {| history := history; _derivative := None;
                              unique_id := uid (variable_count s + 1);
                              name := match name with
                                      | Some n => n
                                      | None => uid (variable_count s + 1)
                                      end;
                              used := 0; value := value |} eq_refl Hok)
      as [Hok' Hfresh].
    repeat split; [apply Hok'|apply Hok'|lia|].
    intros v Hv Hid. apply Hfresh. rewrite <- Hid. by apply list_elem_of_fmap_2.
  - intros s cls vals l s' Hok Hrun.
    pose proof (apply_ok_allocated _ _ _ _ _ Hrun) as Ha.
    destruct (apply_cases cls vals s Ha) as (s1 & _ & He & Hc & Happ).
    rewrite Hrun in Happ.
    destruct (forward cls _ _) as [[c1 c]|e]; [|done].
    destruct (data_type cls c); [|done]. injection Happ as _ ->.
    assert (Hok1 : ids_ok s1).
    { apply (ids_ok_same s); [done| |exact Hok]. by apply used_erased_fmap. }
    rewrite <- Hc. apply (ids_ok_new s1); [|done]. unfold new_node. simpl. by rewrite Hc.
  - intros s self val Hok. unfold requires_grad_, bindM, liftR, deref.
    destruct (heap s !! self) as [v|] eqn:Hv; [|done]. simpl.
    apply (ids_ok_same s); [done| |exact Hok]. simpl.
    rewrite list_fmap_insert. apply list_insert_id. by rewrite list_lookup_fmap, Hv.
  - intros s fuel x deriv r s' Hok Hrun. apply backpropagate_frame in Hrun.
    apply (ids_ok_same s); [apply Hrun|by apply bp_frame_fmap|exact Hok].
Qed.

Lemma unique_ids_kept_witness :
  ids_ok (apply add [VVar 0; VVar 0] (tracked_leaf 1%float initial_state).2).2.
Proof.
  destruct unique_ids_kept as (H0 & Hinit & Happ & Hreq & _).
  apply (Happ (tracked_leaf 1%float initial_state).2 add [VVar 0; VVar 0] 1);
    [|reflexivity].
  apply (Hreq (Variable_init None None 1%float initial_state).2 0 true).
  apply (Hinit initial_state None None 1%float). exact H0.
Defined.

(** X8. A call of [backpropagate], whether it returns or raises, changes
    nothing but derivatives: the counter and the size of the store are
    as before, and every variable is as before up to its derivative. *)
Theorem backpropagate_changes_derivatives_only fuel x deriv s r s' :
  backpropagate fuel x deriv s = Some (r, s') ->
  variable_count s' = variable_count s /\
  length (heap s') = length (heap s) /\
  forall l v, heap s !! l = Some v ->
    exists d, heap s' !! l = Some (set_derivative d v).
Proof.
  intros Hrun. apply backpropagate_frame in Hrun as (Hc & Hlen & Hf).
  repeat split; try done. intros l v Hv.
  destruct (Hf l v Hv) as (v' & Hv' & Heq & _). exists (_derivative v').
  rewrite Hv'. f_equal. destruct v, v'. simpl in *. by injection Heq as -> -> -> -> ->.
Qed.

Lemma backpropagate_changes_derivatives_only_witness :
  exists d,
    heap (match backpropagate 3 (VVar 2) 1%float sum_state with
          | Some (_, s') => s'
          | None => sum_state
          end) !! 1
    = (set_derivative d <$> heap sum_state !! 1).
Proof.
  destruct (backpropagate_changes_derivatives_only 3 (VVar 2) 1%float sum_state (Ok tt)
              _ eq_refl) as (_ & _ & Hf).
  destruct (Hf 1 _ eq_refl) as [d Hd]. exists d. exact Hd.
Defined.

(** ** chain_rule, whenever it returns *)

Lemma chain_rule_spec_cons_skip h inp rest gs :
  tracked h inp = false -> allocated h inp = true ->
  chain_rule_spec h (inp :: rest) gs = chain_rule_spec h rest (tail gs).
Proof.
  intros Ht Ha. destruct gs as [|g gs']; simpl.
  - by rewrite !chain_rule_spec_nil.
  - unfold chain_rule_spec. simpl. destruct inp as [l|x]; simpl; [|done].
    destruct (allocated_deref _ _ Ha) as [v Hv]. rewrite Hv.
    unfold tracked, is_constant, deref in Ht. rewrite Hv in Ht. simpl in Ht.
    by destruct (history v).
Qed.

Lemma chain_rule_from_inv h inputs : forall gs result r,
  chain_rule_from h inputs gs result = Ok r ->
  r = result ++ chain_rule_spec h inputs gs /\
  r.*1 = result.*1 ++ List.filter (tracked h) inputs /\
  forallb (allocated h) inputs = true.
Proof.
  induction inputs as [|inp rest IH]; intros gs result r Hrun.
  - injection Hrun as <-. by rewrite !app_nil_r.
  - simpl in Hrun.
    destruct (is_constant inp h) as [[|]|e] eqn:Hc; simpl in Hrun; [| |done].
    + assert (Ht : tracked h inp = false) by (unfold tracked; by rewrite Hc).
      assert (Ha : allocated h inp = true).
      { destruct inp as [l|x]; [|done]. simpl. apply bool_decide_eq_true_2.
        unfold is_constant, deref in Hc. destruct (h !! l) eqn:Hl; [|done].
        by eapply lookup_lt_Some. }
      apply IH in Hrun as (-> & Hfst & Hall). simpl. rewrite Ht, Ha, Hall.
      by rewrite chain_rule_spec_cons_skip.
    + destruct inp as [l|x]; [|done].
      unfold is_constant, deref in Hc. unfold deref in Hrun.
      destruct (h !! l) as [v|] eqn:Hv; [|done]. simpl in Hc, Hrun.
      destruct (history v) as [hist|] eqn:Eh; [|done].
      destruct gs as [|g gs']; [done|]. simpl in Hrun.
      apply IH in Hrun as (-> & Hfst & Hall). simpl.
      assert (Ht : tracked h (VVar l) = true).
      { unfold tracked, is_constant, deref. rewrite Hv. simpl. by rewrite Eh. }
      rewrite Ht, Hall, Hfst.
      rewrite bool_decide_eq_true_2 by (by eapply lookup_lt_Some).
      repeat split.
      * unfold chain_rule_spec at 2. simpl. rewrite Hv, Eh. by rewrite <- app_assoc.
      * rewrite fmap_app. simpl. by rewrite <- app_assoc.
Qed.

(** X12. Whenever [chain_rule] returns, whatever the number of gradients
    [backward] gave, its result is made of the inputs that are not
    constants, in their order, each with [expand] of the gradient at
    its own position; so it never returns more pairs than there are
    inputs, and every input was a raw number or a live variable. *)
Theorem chain_rule_result cls c inputs d h r :
  chain_rule cls c inputs d h = Ok r ->
  exists ins bv,
    inputs = Some ins /\ backward cls c d = Ok bv /\
    r = chain_rule_spec h ins (as_iterable bv) /\
    r.*1 = List.filter (tracked h) ins /\
    length r <= length ins /\
    forallb (allocated h) ins = true.
Proof.
  intros Hrun. unfold chain_rule in Hrun.
  destruct (backward cls c d) as [bv|e] eqn:Hb; [|done]. simpl in Hrun.
  destruct inputs as [ins|]; [|done]. exists ins, bv.
  rewrite chain_rule_loop_from in Hrun by lia.
  rewrite drop_0, firstn_all in Hrun.
  apply chain_rule_from_inv in Hrun as (Hr & Hfst & Hall). simpl in *.
  repeat split; try done.
  rewrite <- (length_fmap fst r), Hfst. apply filter_length_le.
Qed.

Lemma chain_rule_result_witness :
  exists ins bv,
    Some [VVar 0; VVar 1] = Some ins /\ backward add None 1%float = Ok bv /\
    [(VVar 1, 1%float)] = chain_rule_spec mixed_store ins (as_iterable bv).
Proof.
  destruct (chain_rule_result add None (Some [VVar 0; VVar 1]) 1%float mixed_store
              [(VVar 1, 1%float)] eq_refl) as (ins & bv & H1 & H2 & H3 & _).
  by exists ins, bv.
Defined.

Lemma chain_rule_spec_constants h inputs : forall gs,
  existsb (tracked h) inputs = false -> chain_rule_spec h inputs gs = [].
Proof.
  induction inputs as [|inp rest IH]; intros gs Hex; [done|].
  simpl in Hex. apply orb_false_iff in Hex as [Ht Hex].
  destruct gs as [|g gs']; [by apply chain_rule_spec_nil|].
  specialize (IH gs' Hex). unfold chain_rule_spec in *. simpl.
  destruct inp as [l|x]; simpl; [|exact IH].
  unfold tracked, is_constant, deref in Ht.
  destruct (h !! l) as [v|]; [|exact IH]. simpl in Ht.
  destruct (history v); [done|exact IH].
Qed.

(** X13. Over inputs that are all constants, raw numbers or variables
    without a history, [chain_rule] returns the empty list whatever
    [backward] returned, an empty tuple included: no gradient is read. *)
Theorem chain_rule_all_constants cls c inputs d h bv :
  backward cls c d = Ok bv ->
  forallb (allocated h) inputs = true ->
  existsb (tracked h) inputs = false ->
  chain_rule cls c (Some inputs) d h = Ok [].
Proof.
  intros Hb Ha Hex. rewrite (chain_rule_unfold _ _ _ _ _ _ Hb).
  rewrite chain_rule_from_ok; [by rewrite chain_rule_spec_constants|done|].
  intros i x Hi Hx. exfalso.
  assert (Hin : existsb (tracked h) inputs = true).
  { apply existsb_exists. exists x. split; [|done].
    apply list_elem_of_In. by eapply list_elem_of_lookup_2. }
  congruence.
Qed.

Lemma chain_rule_all_constants_witness :
  chain_rule add None (Some [VVar 0; VRaw 2%float; VRaw 3%float]) 1%float mixed_store
  = Ok [].
Proof.
  apply (chain_rule_all_constants add None [VVar 0; VRaw 2%float; VRaw 3%float] 1%float
           mixed_store (Seq [1%float; 1%float]) eq_refl eq_refl eq_refl).
Defined.

(** ** backward from a leaf or from a constant *)

Lemma bp_while_nil fuel dict_deriv s : bp_while fuel [] dict_deriv s = Some (Ok tt, s).
Proof. by destruct fuel. Qed.

(** The only turn of the loop when the root is a leaf. *)
Lemma backward_leaf_run fuel self deriv s v :
  heap s !! self = Some v ->
  is_leaf v = Ok true ->
  backpropagate (S fuel) (VVar self) deriv s
  = Some (Ok tt,
          {| variable_count := variable_count s;
             heap := <[self := set_derivative
                                 (Some (match _derivative v with
                                        | None => zeros
                                        | Some d0 => d0
                                        end + deriv)%float) v]> (heap s) |}).
Proof.
  intros Hv Hleaf. unfold backpropagate, deref. rewrite Hv. simpl.
  unfold bindM, liftR, liftE, deref. rewrite Hv, Hleaf.
  unfold dict_get. rewrite lookup_insert_eq.
  unfold accumulate_derivative, bindM, liftR, deref, store, ret. rewrite Hv.
  apply bp_while_nil.
Qed.

(** X10. [backward()] on a variable whose history is [None] raises
    [AttributeError] in the first turn of the loop and leaves the state
    as it was: a constant cannot be differentiated from, and nothing is
    accumulated on it. *)
Theorem backward_on_constant_raises fuel self d_output s v :
  heap s !! self = Some v ->
  history v = None ->
  Variable_backward (S fuel) self d_output s = Some (Raise AttributeError, s).
Proof.
  intros Hv Hnone. unfold Variable_backward, backpropagate, deref. rewrite Hv. simpl.
  unfold bindM, liftR, liftE, deref, is_leaf. by rewrite Hv, Hnone.
Qed.

Lemma backward_on_constant_raises_witness :
  Variable_backward 1 0 None mixed_state = Some (Raise AttributeError, mixed_state).
Proof.
  apply (backward_on_constant_raises 0 0 None mixed_state
           {| history := None; _derivative := None; unique_id := "Variable2";
              name := "Variable2"; used := 0; value := 7%float |} eq_refl eq_refl).
Defined.

(** X11. [backward(d_output)] on a leaf (a variable whose [History] has
    no function) ends after one turn: the seed, 1.0 when [d_output] is
    left out, is added to the derivative of the leaf, starting from 0.0
    when it had none, and no other variable changes. *)
Theorem backward_on_leaf fuel self d_output s v :
  heap s !! self = Some v ->
  is_leaf v = Ok true ->
  Variable_backward (S fuel) self d_output s
  = Some (Ok tt,
          {| variable_count := variable_count s;
             heap := <[self := set_derivative
                                 (Some (match _derivative v with
                                        | None => 0%float
                                        | Some d0 => d0
                                        end
                                        + match d_output with
                                          | None => 1%float
                                          | Some d => d
                                          end)%float) v]> (heap s) |}).
Proof. intros Hv Hleaf. unfold Variable_backward. by apply backward_leaf_run. Qed.

Lemma backward_on_leaf_witness :
  exists s',
    Variable_backward 1 1 None mixed_state = Some (Ok tt, s') /\
    derivative_at 1 s' = Some (Some 1%float) /\
    derivative_at 0 s' = Some None.
Proof.
  eexists. split.
  - apply (backward_on_leaf 0 1 None mixed_state
             {| history := Some History_init; _derivative := None;
                unique_id := "Variable3"; name := "Variable3"; used := 0;
                value := 1%float |} eq_refl eq_refl).
  - split; reflexivity.
Defined.

(** X14. [requires_grad_] on a variable that an operation computed
    replaces its history: the variable becomes a leaf, and a later
    [backward()] on it stops there.  The seed is added to its own
    derivative and the variables it was computed from receive nothing. *)
Theorem requires_grad_cuts_history fuel self val d_output s v :
  heap s !! self = Some v ->
  exists s1,
    requires_grad_ self val s = (Ok tt, s1) /\
    (is_leaf <$> heap s1 !! self) = Some (Ok true) /\
    exists s2,
      Variable_backward (S fuel) self d_output s1 = Some (Ok tt, s2) /\
      forall l, l <> self -> heap s2 !! l = heap s !! l.
Proof.
  intros Hv.
  assert (Hlt : self < length (heap s)) by (by eapply lookup_lt_Some).
  eexists. split.
  { unfold requires_grad_, bindM, liftR, deref. by rewrite Hv. }
  simpl. rewrite list_lookup_insert_eq by done. split; [done|].
  eexists. split.
  { unfold Variable_backward.
    apply (backward_leaf_run fuel self _ _ (set_history (Some History_init) v));
      [|reflexivity].
    simpl. by apply list_lookup_insert_eq. }
  intros l Hne. simpl. by rewrite !list_lookup_insert_ne.
Qed.

Lemma requires_grad_cuts_history_witness :
  exists s1 s2,
    requires_grad_ 2 true sum_state = (Ok tt, s1) /\
    Variable_backward 1 2 None s1 = Some (Ok tt, s2) /\
    derivative_at 2 s2 = Some (Some 1%float) /\
    derivative_at 1 s2 = Some None.
Proof.
  destruct (requires_grad_cuts_history 0 2 true None sum_state _ eq_refl)
    as (s1 & Hreq & _ & s2 & Hback & Hother).
  exists s1, s2. split; [done|]. split; [done|].
  vm_compute in Hreq. injection Hreq as <-.
  vm_compute in Hback. injection Hback as <-.
  split; reflexivity.
Defined.

(** ** The dictionary of backpropagate *)

Lemma bp_record_entries h v_d : forall queue dict_deriv queue' dict_deriv',
  foldR (bp_record h) (queue, dict_deriv) v_d = Ok (queue', dict_deriv') ->
  (forall k, is_Some (dict_deriv !! k) -> is_Some (dict_deriv' !! k)) /\
  Forall (has_entry dict_deriv' h) v_d.*1.
Proof.
  induction v_d as [|[x g] v_d IH]; intros queue dict_deriv queue' dict_deriv' Hrun.
  - injection Hrun as <- <-. split; [done|constructor].
  - simpl in Hrun. destruct x as [l|r]; [|done]. unfold deref in Hrun.
    destruct (h !! l) as [v|] eqn:Hv; [|done]. simpl in Hrun.
    apply IH in Hrun as [Hkeys Hrest].
    assert (Hgrow : forall k, is_Some (dict_deriv !! k) -> is_Some (dict_deriv' !! k)).
    { intros k Hk. apply Hkeys. destruct (decide (unique_id v = k)) as [<-|Hne].
      - rewrite lookup_insert_eq. eauto.
      - by rewrite lookup_insert_ne. }
    split; [done|]. simpl. constructor; [|done].
    destruct (Hkeys (unique_id v)) as [d Hd]; [rewrite lookup_insert_eq; eauto|].
    exists l, v, d. unfold dict_get. by rewrite Hd.
Qed.

Lemma has_entry_grow dict_deriv dict_deriv' h x :
  (forall k, is_Some (dict_deriv !! k) -> is_Some (dict_deriv' !! k)) ->
  has_entry dict_deriv h x -> has_entry dict_deriv' h x.
Proof.
  intros Hkeys (l & v & d & -> & Hv & Hd). unfold dict_get in Hd.
  destruct (dict_deriv !! unique_id v) as [d0|] eqn:Hd0; [|done].
  destruct (Hkeys (unique_id v)) as [d1 Hd1]; [by rewrite Hd0|].
  exists l, v, d1. unfold dict_get. by rewrite Hd1.
Qed.

(** X9. In a run of [backpropagate] every queued operand is a variable
    of the store whose identifier has an entry in [dict_deriv]: the
    reads [dict_deriv[Variable_1.unique_id]] of the loop find their
    key at every turn. *)
Theorem backpropagate_dict_has_entries variable deriv s0 queue dict_deriv s :
  bp_reach variable deriv s0 queue dict_deriv s ->
  Forall (has_entry dict_deriv (heap s)) queue.
Proof.
  induction 1 as [v Hv|V queue dict_deriv s queue' dict_deriv' s' Hreach IH Hrun].
  - constructor; [|constructor]. exists variable, v, deriv.
    unfold dict_get. by rewrite lookup_insert_eq.
  - apply Forall_cons in IH as [_ IH].
    apply bp_iteration_ok in Hrun
      as (l & v & d & -> & Hv & Hd & [(Hleaf & -> & -> & ->)|(Hleaf & -> & Hchain)]).
    + eapply Forall_impl; [exact IH|]. intros x (l1 & v1 & d1 & -> & Hv1 & Hd1). simpl.
      destruct (decide (l1 = l)) as [->|Hne].
      * rewrite Hv in Hv1. injection Hv1 as <-.
        eexists l, _, d1. split; [done|].
        split; [apply list_lookup_insert_eq; by eapply lookup_lt_Some|exact Hd1].
      * exists l1, v1, d1. by rewrite list_lookup_insert_ne.
    + destruct Hchain as (hist & f & v_d & _ & _ & _ & Hfold).
      pose proof (bp_record_queue _ _ _ _ _ _ Hfold) as ->.
      apply bp_record_entries in Hfold as [Hkeys Hnew].
      apply Forall_app. split; [|done].
      eapply Forall_impl; [exact IH|]. intros x. by apply has_entry_grow.
Qed.

Lemma backpropagate_dict_has_entries_witness :
  Forall (has_entry (<["Variable4" := 1%float]> ∅) (heap sum_state)) [VVar 2].
Proof.
  apply (backpropagate_dict_has_entries 2 1%float sum_state).
  apply (bp_reach_start 2 1%float sum_state
           {| history := Some {| last_fn := Some add;
                                 ctx := Some (Context_init false);
                                 inputs := Some [VVar 0; VVar 1] |};
              _derivative := None; unique_id := "Variable4"; name := "Variable4";
              used := 0; value := 8%float |}).
  reflexivity.
Defined.

(** ** Acyclic stores *)

Lemma acyclic_same h h' :
  inputs_of <$> h' = inputs_of <$> h -> acyclic h -> acyclic h'.
Proof. unfold acyclic. by intros ->. Qed.

Lemma acyclic_app h v :
  acyclic h -> forallb (allocated h) (inputs_of v) = true -> acyclic (h ++ [v]).
Proof.
  intros Hh Hv l ins Hl. rewrite fmap_app in Hl.
  apply lookup_app_Some in Hl as [Hl|[Hge Hl]]; [by apply Hh|].
  rewrite length_fmap in Hge, Hl. simpl in Hl.
  apply list_lookup_singleton_Some in Hl as [Hl <-].
  assert (l = length h) as -> by lia. exact Hv.
Qed.

Lemma acyclic_from_sound_at g : forall l0,
  acyclic_from l0 g = true ->
  forall i ins, g !! i = Some ins -> forallb (operand_below (l0 + i)) ins = true.
Proof.
  induction g as [|ins0 g IH]; intros l0 Hg i ins Hi; [done|].
  simpl in Hg. apply andb_true_iff in Hg as [H0 Hg]. destruct i as [|i]; simpl in Hi.
  - injection Hi as <-. by rewrite Nat.add_0_r.
  - replace (l0 + S i) with (S l0 + i) by lia. by eapply IH.
Qed.

Lemma acyclic_from_sound h : acyclic_from 0 (inputs_of <$> h) = true -> acyclic h.
Proof. intros Hg l ins Hl. by apply (acyclic_from_sound_at _ 0 Hg l ins). Qed.

(** X6. The graph is acyclic by construction.  That every variable was
    computed from variables allocated before it holds of the empty
    store and is kept by creating a variable without history, by
    [requires_grad_], by every call of [apply] that returns, and by
    [backpropagate]. *)
Theorem graph_stays_acyclic :
  acyclic (heap initial_state) /\
  (forall s name value,
     acyclic (heap s) -> acyclic (heap (Variable_init None name value s).2)) /\
  (forall s self val,
     acyclic (heap s) -> acyclic (heap (requires_grad_ self val s).2)) /\
  (forall s cls vals l s',
     acyclic (heap s) -> apply cls vals s = (Ok l, s') ->
     acyclic (heap s') /\ forallb (operand_below l) vals = true) /\
  (forall s fuel x deriv r s',
     acyclic (heap s) -> backpropagate fuel x deriv s = Some (r, s') ->
     acyclic (heap s')).
Proof.
  split; [|split; [|split; [|split]]].
  - by intros l ins.
  - intros s name value Hs. simpl. by apply acyclic_app.
  - intros s self val Hs. unfold requires_grad_, bindM, liftR, deref.
    destruct (heap s !! self) as [v|] eqn:Hv; [|done]. simpl.
    intros l ins Hl. rewrite list_fmap_insert in Hl.
    destruct (decide (l = self)) as [->|Hne].
    + rewrite list_lookup_insert_eq in Hl
        by (rewrite length_fmap; by eapply lookup_lt_Some).
      by injection Hl as <-.
    + rewrite list_lookup_insert_ne in Hl by done. by apply Hs.
  - intros s cls vals l s' Hs Hrun.
    pose proof (apply_ok_allocated _ _ _ _ _ Hrun) as Ha.
    destruct (apply_cases cls vals s Ha) as (s1 & _ & He & _ & Happ).
    rewrite Hrun in Happ.
    destruct (forward cls _ _) as [[c1 c]|e]; [|done].
    destruct (data_type cls c); [|done]. injection Happ as -> ->.
    split; [|exact Ha]. simpl.
    assert (Hs1 : acyclic (heap s1)).
    { apply (acyclic_same (heap s)); [|done]. by apply used_erased_fmap. }
    apply acyclic_app; [done|].
    rewrite (forallb_allocated_length (heap s)) by (by apply used_erased_length).
    unfold inputs_of, new_node. simpl. by destruct (existsb (tracked (heap s)) vals).
  - intros s fuel x deriv r s' Hs Hrun. apply backpropagate_frame in Hrun.
    apply (acyclic_same (heap s)); [|done]. by apply bp_frame_fmap.
Qed.

Lemma graph_stays_acyclic_witness :
  acyclic (heap (apply add [VVar 0; VVar 0] (tracked_leaf 1%float initial_state).2).2).
Proof.
  destruct graph_stays_acyclic as (H0 & Hinit & Hreq & Happ & _).
  apply (Happ (tracked_leaf 1%float initial_state).2 add [VVar 0; VVar 0] 1);
    [|reflexivity].
  apply (Hreq (Variable_init None None 1%float initial_state).2 0 true).
  apply (Hinit initial_state None 1%float). exact H0.
Defined.

(** ** Termination of backpropagate *)

Lemma max_inputs_le h l v : h !! l = Some v -> length (inputs_of v) <= max_inputs h.
Proof.
  intros Hv. unfold max_inputs. apply max_list_elem_of_le.
  apply list_elem_of_fmap_2, list_elem_of_fmap_2. by eapply list_elem_of_lookup_2.
Qed.

Lemma pow_S_pos k l : 1 <= S k ^ l.
Proof. induction l as [|l IH]; simpl; lia. Qed.

Lemma turn_bound_pos k x : 1 <= turn_bound k x.
Proof. destruct x; simpl; [apply pow_S_pos|lia]. Qed.

(** The operands queued for a variable at [l] account for fewer turns
    than the variable itself. *)
Lemma children_bound k l cs :
  Forall (fun c => exists l', c = VVar l' /\ l' < l) cs ->
  length cs <= k ->
  sum_list_with (turn_bound k) cs + 1 <= S k ^ l.
Proof.
  intros Hcs Hlen. destruct l as [|l].
  - destruct cs as [|c cs]; [simpl; lia|].
    apply Forall_cons in Hcs as [(l' & _ & Hl') _]. lia.
  - assert (Hsum : sum_list_with (turn_bound k) cs <= length cs * S k ^ l).
    { clear Hlen. induction Hcs as [|c cs (l' & -> & Hl') _ IH]; [done|].
      simpl. assert (S k ^ l' <= S k ^ l) by (apply Nat.pow_le_mono_r; lia). lia. }
    rewrite Nat.pow_succ_r'. pose proof (pow_S_pos k l). nia.
Qed.

Lemma chain_rule_fst cls c inputs d h r :
  chain_rule cls c inputs d h = Ok r ->
  exists ins, inputs = Some ins /\ r.*1 = List.filter (tracked h) ins.
Proof.
  intros Hrun. unfold chain_rule in Hrun.
  destruct (backward cls c d) as [bv|e]; [|done]. simpl in Hrun.
  destruct inputs as [ins|]; [|done]. exists ins. split; [done|].
  rewrite chain_rule_loop_from in Hrun by lia.
  rewrite drop_0, firstn_all in Hrun.
  by apply chain_rule_from_inv in Hrun as (_ & Hfst & _).
Qed.

(** What a turn of the loop queues for the variable at [l] lies below
    [l] in an acyclic store, and is no more than its operands. *)
Lemma bp_children_below h l v hist v_d f d :
  acyclic h -> h !! l = Some v -> history v = Some hist ->
  chain_rule f (ctx hist) (inputs hist) d h = Ok v_d ->
  Forall (fun c => exists l', c = VVar l' /\ l' < l) v_d.*1 /\
  length v_d.*1 <= length (inputs_of v).
Proof.
  intros Hacyc Hv Hh Hc. apply chain_rule_fst in Hc as (ins & Hins & Hfst).
  assert (Hof : inputs_of v = ins) by (unfold inputs_of; by rewrite Hh, Hins).
  split.
  - rewrite Hfst. apply Forall_forall. intros c Hin.
    apply list_elem_of_In, filter_In in Hin as [Hin Ht].
    apply tracked_spec in Ht as (l' & _ & _ & -> & _ & _). exists l'. split; [done|].
    assert (Hbelow : forallb (operand_below l) ins = true).
    { apply Hacyc. by rewrite list_lookup_fmap, Hv, <- Hof. }
    rewrite forallb_forall in Hbelow. apply Hbelow in Hin. simpl in Hin.
    by apply bool_decide_eq_true in Hin.
  - rewrite Hfst, Hof. apply filter_length_le.
Qed.

(** With as many turns allowed as the queue accounts for, the loop does
    not run out of them. *)
Lemma bp_while_terminates k fuel : forall queue dict_deriv s,
  acyclic (heap s) -> max_inputs (heap s) <= k ->
  sum_list_with (turn_bound k) queue <= fuel ->
  exists r s', bp_while fuel queue dict_deriv s = Some (r, s').
Proof.
  induction fuel as [|fuel IH]; intros queue dict_deriv s Hacyc Hmax Hsum;
    destruct queue as [|V queue]; simpl; eauto.
  - simpl in Hsum. pose proof (turn_bound_pos k V). lia.
  - simpl in Hsum.
    destruct (bp_iteration V queue dict_deriv s) as [[[q2 d2]|e] s2] eqn:Hit; [|eauto].
    destruct (bp_iteration_frame s _ _ _ _ _ _ _ (bp_frame_refl s) Hit) as [Hframe _].
    assert (Hgraph : inputs_of <$> heap s2 = inputs_of <$> heap s)
      by (by apply bp_frame_fmap).
    apply IH.
    + by apply (acyclic_same (heap s)).
    + unfold max_inputs. by rewrite Hgraph.
    + apply bp_iteration_ok in Hit
        as (l & v & d & -> & Hv & Hd & [(Hleaf & -> & -> & ->)|(Hleaf & -> & Hchain)]).
      * pose proof (turn_bound_pos k (VVar l)). lia.
      * destruct Hchain as (hist & f & v_d & Hh & _ & Hc & Hfold).
        pose proof (bp_record_queue _ _ _ _ _ _ Hfold) as ->.
        destruct (bp_children_below _ _ _ _ _ _ _ Hacyc Hv Hh Hc) as [Hbelow Hlen].
        pose proof (max_inputs_le _ _ _ Hv) as Hle.
        pose proof (children_bound k l (v_d.*1) Hbelow ltac:(lia)) as Hcb.
        rewrite sum_list_with_app. simpl in Hsum. lia.
Qed.

(** X7. On an acyclic store the loop of [backpropagate] comes to an end,
    by return or by exception: from the root at location [l] it takes
    no more than [(k+1)^l] turns, [k] being the largest number of
    operands of a variable of the store. *)
Theorem backpropagate_terminates fuel variable deriv s :
  acyclic (heap s) ->
  S (max_inputs (heap s)) ^ variable <= fuel ->
  exists r s', backpropagate fuel (VVar variable) deriv s = Some (r, s').
Proof.
  intros Hacyc Hfuel. unfold backpropagate.
  destruct (deref variable (heap s)) as [v|e]; [|eauto].
  apply (bp_while_terminates (max_inputs (heap s))); [done|done|].
  simpl. lia.
Qed.

Lemma backpropagate_terminates_witness :
  exists r s',
    backpropagate 27 (VVar 3) 1%float (diamond_scenario initial_state).2 = Some (r, s').
Proof.
  apply (backpropagate_terminates 27 3 1%float (diamond_scenario initial_state).2).
  - apply acyclic_from_sound. reflexivity.
  - vm_compute. lia.
Defined.

(** ** topological_sort *)

Lemma ids_inj h l l' v v' :
  NoDup (unique_id <$> h) ->
  h !! l = Some v -> h !! l' = Some v' -> unique_id v = unique_id v' -> l = l'.
Proof.
  intros Hnd Hv Hv' Heq.
  apply (NoDup_lookup _ l l' (unique_id v) Hnd); rewrite list_lookup_fmap.
  - by rewrite Hv.
  - by rewrite Hv', Heq.
Qed.






Lemma visit_inputs_total visit' h ms :
  (forall m, m ∈ ms -> tracked h m = true -> forall st, exists r, visit' m st = Some r) ->
  forall st, exists r, visit_inputs visit' h ms st = Some r.
Proof.
  induction ms as [|m ms IH]; intros Hvisit st; simpl; [eauto|].
  assert (Hrest : forall st1, exists r, visit_inputs visit' h ms st1 = Some r).
  { apply IH. intros m0 Hm0. apply Hvisit. apply elem_of_cons. by right. }
  destruct (is_constant m h) as [[|]|e] eqn:Hc; [done| |eauto].
  destruct (Hvisit m) with (st := st) as [[st1|e] Hm];
    [apply elem_of_cons; by left|unfold tracked; by rewrite Hc| |];
    rewrite Hm; eauto.
Qed.

Lemma visit_total h :
  acyclic h ->
  forall depth l st, l < depth -> exists r, visit depth h (VVar l) st = Some r.
Proof.
  intros Hacyc. induction depth as [|depth IH]; intros l st Hl; [lia|].
  simpl. destruct (h !! l) as [v|] eqn:Hv; [|eauto].
  destruct (decide (unique_id v ∈ st.2)); [eauto|].
  destruct (is_leaf v) as [[|]|e]; [destruct st; eauto| |eauto].
  destruct (history v) as [hist|] eqn:Hh; [|eauto].
  destruct (inputs hist) as [ms|] eqn:Hms; [|eauto].
  destruct (visit_inputs_total (visit depth h) h ms) with (st := st) as [r Hr].
  { intros m Hm Ht st1.
    apply tracked_spec in Ht as (l' & _ & _ & -> & _ & _). apply IH.
    assert (Hbelow : forallb (operand_below l) ms = true).
    { apply Hacyc. rewrite list_lookup_fmap, Hv. simpl. unfold inputs_of.
      by rewrite Hh, Hms. }
    rewrite forallb_forall in Hbelow. apply list_elem_of_In in Hm.
    apply Hbelow in Hm. simpl in Hm. apply bool_decide_eq_true in Hm. lia. }
  rewrite Hr. destruct r as [[order seen]|e]; eauto.
Qed.

(** X16. On an acyclic store [topological_sort] comes to an end: called
    on the variable at location [l] it nests no more than [l + 1] calls
    of [visit]. *)
Theorem topological_sort_terminates depth root h :
  acyclic h -> root < depth ->
  exists r, topological_sort depth (VVar root) h = Some r.
Proof.
  intros Hacyc Hd. unfold topological_sort.
  destruct (visit_total h Hacyc depth root ([], ∅) Hd) as [[[order seen]|e] Hr];
    rewrite Hr; eauto.
Qed.

Lemma topological_sort_terminates_witness :
  exists r, topological_sort 4 (VVar 3) (heap (diamond_scenario initial_state).2) = Some r.
Proof.
  apply (topological_sort_terminates 4 3 (heap (diamond_scenario initial_state).2)).
  - apply acyclic_from_sound. reflexivity.
  - lia.
Defined.

(** ** backward through one operation *)

Lemma bp_record_ok h v_d : forall queue dict_deriv,
  Forall (fun p => tracked h p.1 = true) v_d ->
  exists dict_deriv',
    foldR (bp_record h) (queue, dict_deriv) v_d = Ok (queue ++ v_d.*1, dict_deriv').
Proof.
  induction v_d as [|[x g] v_d IH]; intros queue dict_deriv Hall.
  - exists dict_deriv. simpl. by rewrite app_nil_r.
  - apply Forall_cons in Hall as [Hx Hall]. simpl in Hx.
    apply tracked_spec in Hx as (l & v & hist & -> & Hv & _).
    destruct (IH (queue ++ [VVar l]) (<[unique_id v := g]> dict_deriv) Hall)
      as [d' Hd'].
    exists d'. simpl. unfold deref. rewrite Hv. simpl. rewrite Hd'.
    by rewrite <- app_assoc.
Qed.

(** The entries of the dictionary the inner loop does not write. *)
Lemma bp_record_other h v_d k : forall queue dict_deriv queue' dict_deriv',
  foldR (bp_record h) (queue, dict_deriv) v_d = Ok (queue', dict_deriv') ->
  (forall l v, VVar l ∈ v_d.*1 -> h !! l = Some v -> unique_id v <> k) ->
  dict_deriv' !! k = dict_deriv !! k.
Proof.
  induction v_d as [|[x g] v_d IH]; intros queue dict_deriv queue' dict_deriv' Hrun Hk.
  - by injection Hrun as _ <-.
  - simpl in Hrun. destruct x as [l|r]; [|done]. unfold deref in Hrun.
    destruct (h !! l) as [v|] eqn:Hv; [|done]. simpl in Hrun.
    rewrite (IH _ _ _ _ Hrun).
    + apply lookup_insert_ne. apply (Hk l v); [|done]. simpl. apply elem_of_cons. by left.
    + intros l' v' Hin. apply Hk. simpl. apply elem_of_cons. by right.
Qed.

(** When the operands are pairwise distinct, and so are the identifiers
    of the store, each operand finds its own contribution in the
    dictionary after the inner loop. *)
Lemma bp_record_own h v_d :
  NoDup (unique_id <$> h) ->
  forall queue dict_deriv queue' dict_deriv',
    foldR (bp_record h) (queue, dict_deriv) v_d = Ok (queue', dict_deriv') ->
    NoDup v_d.*1 ->
    forall l g v, (VVar l, g) ∈ v_d -> h !! l = Some v ->
      dict_deriv' !! unique_id v = Some g.
Proof.
  intros Hids. induction v_d as [|[x g0] v_d IH];
    intros queue dict_deriv queue' dict_deriv' Hrun Hnd l g v Hin Hv.
  - by apply elem_of_nil in Hin.
  - simpl in Hnd. apply NoDup_cons in Hnd as [Hfresh Hnd].
    simpl in Hrun. destruct x as [l0|r]; [|done]. unfold deref in Hrun.
    destruct (h !! l0) as [v0|] eqn:Hv0; [|done]. simpl in Hrun.
    apply elem_of_cons in Hin as [[= -> ->]|Hin].
    + rewrite Hv0 in Hv. injection Hv as <-.
      rewrite (bp_record_other _ _ _ _ _ _ _ Hrun); [apply lookup_insert_eq|].
      intros l' v' Hin' Hv' Heq.
      assert (l' = l0) as -> by (by eapply ids_inj). done.
    + by eapply IH.
Qed.

Lemma bp_while_cons fuel Variable_1 queue dict_deriv s :
  bp_while (S fuel) (Variable_1 :: queue) dict_deriv s
  = match bp_iteration Variable_1 queue dict_deriv s with
    | (Ok (q, d), s') => bp_while fuel q d s'
    | (Raise e, s') => Some (Raise e, s')
    end.
Proof. done. Qed.

(** The turns of the loop over a queue of pairwise distinct leaves: each
    receives its entry of the dictionary once. *)
Lemma bp_leaves_run dict_deriv queue : forall s fuel,
  NoDup queue ->
  (forall x, x ∈ queue ->
     exists l v g, x = VVar l /\ heap s !! l = Some v /\ is_leaf v = Ok true /\
                   dict_deriv !! unique_id v = Some g) ->
  length queue <= fuel ->
  exists s',
    bp_while fuel queue dict_deriv s = Some (Ok tt, s') /\
    (forall l, VVar l ∉ queue -> heap s' !! l = heap s !! l) /\
    (forall l v g, VVar l ∈ queue -> heap s !! l = Some v ->
       dict_deriv !! unique_id v = Some g ->
       heap s' !! l
       = Some (set_derivative (Some (match _derivative v with
                                     | None => zeros
                                     | Some d0 => d0
                                     end + g)%float) v)).
Proof.
  induction queue as [|x queue IH]; intros s fuel Hnd Hq Hfuel.
  - exists s. rewrite bp_while_nil. split; [done|]. split; [done|].
    intros l v g Hin. by apply elem_of_nil in Hin.
  - apply NoDup_cons in Hnd as [Hfresh Hnd].
    destruct fuel as [|fuel]; [simpl in Hfuel; lia|].
    destruct (Hq x) as (l & v & g & -> & Hv & Hleaf & Hd); [apply elem_of_cons; by left|].
    set (s1 := {| variable_count := variable_count s;
                  heap := <[l := set_derivative
                                   (Some (match _derivative v with
                                          | None => zeros
                                          | Some d0 => d0
                                          end + g)%float) v]> (heap s) |}).
    assert (Hturn : bp_iteration (VVar l) queue dict_deriv s = (Ok (queue, dict_deriv), s1)).
    { unfold bp_iteration, bindM, liftR, liftE, deref. rewrite Hv, Hleaf.
      unfold dict_get. rewrite Hd.
      unfold accumulate_derivative, bindM, liftR, deref, store, ret. by rewrite Hv. }
    assert (Hother : forall l', VVar l' ∈ queue -> heap s1 !! l' = heap s !! l').
    { intros l' Hin. simpl. apply list_lookup_insert_ne. by intros ->. }
    destruct (IH s1 fuel Hnd) as (s' & Hrun & Hout & Hin); [|simpl in Hfuel; lia|].
    { intros x Hx. destruct (Hq x) as (l' & v' & g' & -> & Hv' & Hleaf' & Hd');
        [apply elem_of_cons; by right|].
      exists l', v', g'. by rewrite Hother. }
    exists s'. rewrite bp_while_cons, Hturn. split; [done|]. split.
    + intros l' Hl'. apply not_elem_of_cons in Hl' as [Hne Hl'].
      rewrite (Hout l' Hl'). simpl. apply list_lookup_insert_ne. congruence.
    + intros l' v' g' [[= ->]|Hl']%elem_of_cons Hv' Hd'.
      * rewrite Hv in Hv'. injection Hv' as <-. rewrite Hd in Hd'. injection Hd' as <-.
        rewrite (Hout l Hfresh). simpl. apply list_lookup_insert_eq.
        by eapply lookup_lt_Some.
      * apply Hin; [done| |done]. by rewrite Hother.
Qed.

(** X17. [backward] from a variable computed by one operation whose
    operands that are not constants are pairwise distinct leaves (the
    identifiers of the store being distinct): the call returns after
    one turn for the variable and one for each of these operands, each
    operand has had its contribution from [chain_rule] added to its
    derivative, and no other variable has changed. *)
Theorem backward_one_operation fuel variable deriv s v hist f v_d :
  NoDup (unique_id <$> heap s) ->
  heap s !! variable = Some v ->
  history v = Some hist ->
  last_fn hist = Some f ->
  chain_rule f (ctx hist) (inputs hist) deriv (heap s) = Ok v_d ->
  NoDup v_d.*1 ->
  (forall l vl, VVar l ∈ v_d.*1 -> heap s !! l = Some vl -> is_leaf vl = Ok true) ->
  S (length v_d) <= fuel ->
  exists s',
    backpropagate fuel (VVar variable) deriv s = Some (Ok tt, s') /\
    (forall l g vl, (VVar l, g) ∈ v_d -> heap s !! l = Some vl ->
       heap s' !! l
       = Some (set_derivative (Some (match _derivative vl with
                                     | None => 0%float
                                     | Some d0 => d0
                                     end + g)%float) vl)) /\
    (forall l, VVar l ∉ v_d.*1 -> heap s' !! l = heap s !! l).
Proof.
  intros Hids Hv Hh Hf Hc Hnd Hleaves Hfuel.
  destruct fuel as [|fuel]; [lia|].
  pose proof (chain_rule_tracked _ _ _ _ _ _ Hc) as Htr.
  destruct (bp_record_ok (heap s) v_d [] (<[unique_id v := deriv]> ∅) Htr)
    as [d' Hrec].
  simpl in Hrec.
  assert (Hturn : bp_iteration (VVar variable) [] (<[unique_id v := deriv]> ∅) s
                  = (Ok (v_d.*1, d'), s)).
  { unfold bp_iteration, bindM, liftR, liftE, deref, is_leaf. rewrite Hv, Hh, Hf.
    unfold dict_get. rewrite lookup_insert_eq. by rewrite Hc, Hrec. }
  destruct (bp_leaves_run d' (v_d.*1) s fuel Hnd) as (s' & Hrun & Hout & Hin).
  { intros x Hx. pose proof Hx as Hx'. apply list_elem_of_fmap in Hx' as ([x' g] & -> & Hp).
    rewrite Forall_forall in Htr. pose proof (Htr _ Hp) as Ht. simpl in *.
    apply tracked_spec in Ht as (l & vl & _ & -> & Hvl & _).
    exists l, vl, g. split; [done|]. split; [done|].
    split; [by eapply Hleaves|by eapply bp_record_own]. }
  { rewrite length_fmap. lia. }
  exists s'. split; [|split; [|done]].
  - unfold backpropagate, deref. rewrite Hv. by rewrite bp_while_cons, Hturn.
  - intros l g vl Hp Hvl. apply Hin; [|done|by eapply bp_record_own].
    apply list_elem_of_fmap. by exists (VVar l, g).
Qed.

Lemma backward_one_operation_witness :
  exists s',
    backpropagate 2 (VVar 2) 1%float sum_state = Some (Ok tt, s') /\
    derivative_at 1 s' = Some (Some 1%float).
Proof.
  destruct (backward_one_operation 2 2 1%float sum_state
              {| history := Some {| last_fn := Some add;
                                    ctx := Some (Context_init false);
                                    inputs := Some [VVar 0; VVar 1] |};
                 _derivative := None; unique_id := "Variable4"; name := "Variable4";
                 used := 0; value := 8%float |}
              {| last_fn := Some add; ctx := Some (Context_init false);
                 inputs := Some [VVar 0; VVar 1] |}
              add [(VVar 1, 1%float)])
    as (s' & Hrun & Hin & _).
  - refine (bool_decide_unpack _ _). vm_compute. exact I.
  - reflexivity.
  - reflexivity.
  - reflexivity.
  - reflexivity.
  - simpl. apply NoDup_singleton.
  - intros l vl Hl Hvl. simpl in Hl. apply list_elem_of_singleton in Hl. injection Hl as ->.
    vm_compute in Hvl. by injection Hvl as <-.
  - simpl. lia.
  - exists s'. split; [exact Hrun|]. unfold derivative_at.
    by rewrite (Hin 1 1%float _ ltac:(apply list_elem_of_here) eq_refl).
Defined.

(** ** backward along a chain of operations *)

Lemma bp_chain_leaf_is_leaf h n l d leaf g :
  bp_chain h n l d leaf g -> exists v, h !! leaf = Some v /\ is_leaf v = Ok true.
Proof. induction 1; eauto. Qed.

(** The loop along a chain, from the queue holding the head of the
    chain alone: nothing changes until the leaf is reached. *)
Lemma bp_chain_run s n l d leaf g :
  bp_chain (heap s) n l d leaf g ->
  forall dict_deriv v fuel,
    heap s !! l = Some v -> dict_deriv !! unique_id v = Some d -> n < fuel ->
    exists vl,
      heap s !! leaf = Some vl /\
      bp_while fuel [VVar l] dict_deriv s
      = Some (Ok tt,
              {| variable_count := variable_count s;
                 heap := <[leaf := set_derivative
                                     (Some (match _derivative vl with
                                            | None => zeros
                                            | Some d0 => d0
                                            end + g)%float) vl]> (heap s) |}).
Proof.
  induction 1 as [l d v Hv Hleaf|n l d v hist f l' d' leaf g Hv Hh Hf Hc Hchain IH];
    intros dict_deriv v0 fuel Hv0 Hd Hfuel; destruct fuel as [|fuel]; try lia;
    rewrite Hv0 in Hv; injection Hv as ->.
  - exists v. split; [done|]. rewrite bp_while_cons.
    unfold bp_iteration, bindM, liftR, liftE, deref. rewrite Hv0, Hleaf.
    unfold dict_get. rewrite Hd.
    unfold accumulate_derivative, bindM, liftR, deref, store, ret. rewrite Hv0.
    apply bp_while_nil.
  - pose proof (chain_rule_tracked _ _ _ _ _ _ Hc) as Htr.
    apply Forall_cons in Htr as [Htr _]. simpl in Htr.
    apply tracked_spec in Htr as (l0 & v' & _ & [= <-] & Hv' & _).
    destruct (IH (<[unique_id v' := d']> dict_deriv) v' fuel Hv')
      as (vl & Hvl & Hrun); [apply lookup_insert_eq|lia|].
    exists vl. split; [done|]. rewrite bp_while_cons.
    unfold bp_iteration, bindM, liftR, liftE, deref, is_leaf. rewrite Hv0, Hh, Hf.
    unfold dict_get. rewrite Hd, Hc. simpl. unfold deref. rewrite Hv'. simpl.
    exact Hrun.
Qed.

(** X18. Along a chain of [n] operations, each giving [chain_rule] one
    operand that is not a constant, [backward] returns after [n + 1]
    turns: the derivative that [chain_rule] passes down step by step is
    added to the derivative of the leaf at the end of the chain, and no
    other variable changes. *)
Theorem backward_along_chain fuel n variable deriv leaf g s :
  bp_chain (heap s) n variable deriv leaf g ->
  n < fuel ->
  exists vl,
    heap s !! leaf = Some vl /\
    backpropagate fuel (VVar variable) deriv s
    = Some (Ok tt,
            {| variable_count := variable_count s;
               heap := <[leaf := set_derivative
                                   (Some (match _derivative vl with
                                          | None => 0%float
                                          | Some d0 => d0
                                          end + g)%float) vl]> (heap s) |}).
Proof.
  intros Hchain Hfuel.
  assert (Hroot : exists v, heap s !! variable = Some v) by (inversion Hchain; eauto).
  destruct Hroot as [v Hv]. unfold backpropagate, deref. rewrite Hv.
  by apply (bp_chain_run s n variable deriv leaf g Hchain _ v);
    [|apply lookup_insert_eq|].
Qed.

Lemma backward_along_chain_witness :
  exists s',
    backpropagate 2 (VVar 1) 1%float (square_scenario initial_state).2 = Some (Ok tt, s') /\
    derivative_at 0 s' = Some (Some 4%float).
Proof.
  destruct (backward_along_chain 2 1 1 1%float 0 4%float (square_scenario initial_state).2)
    as (vl & Hvl & Hrun).
  - eapply bp_chain_step; [reflexivity|reflexivity|reflexivity|reflexivity|].
    eapply bp_chain_leaf; reflexivity.
  - lia.
  - eexists. split; [exact Hrun|]. vm_compute in Hvl. injection Hvl as <-. reflexivity.
Defined.

(** ** Saving in a context *)

(** X19. [save_for_backward] never changes [no_grad].  On a context
    built without [no_grad], after any calls of [save_for_backward]
    ending with the values [values], [saved_values] returns [values]
    (its element when there is one): only the last call counts. *)
Theorem saved_values_last_save c0 saves values :
  no_grad (saves_from c0 saves) = no_grad c0 /\
  (no_grad c0 = false ->
   saved_values (saves_from c0 (saves ++ [values])) = Ok (unwrap_tuple values)).
Proof.
  assert (Hng : forall saves', no_grad (saves_from c0 saves') = no_grad c0).
  { intros saves'. unfold saves_from. revert c0.
    induction saves' as [|x saves' IH]; intros c0; [done|]. simpl. rewrite IH.
    unfold save_for_backward. by destruct (no_grad c0) eqn:E. }
  split; [apply Hng|]. intros Hfalse.
  specialize (Hng saves). unfold saves_from in *. rewrite foldl_app. simpl.
  rewrite Hfalse in Hng. set (c := foldl save_for_backward c0 saves) in *.
  unfold saved_values, save_for_backward. by rewrite Hng.
Qed.

Lemma saved_values_last_save_witness :
  saved_values (saves_from (Context_init false) [[1%float]; [2%float; 3%float]])
  = Ok (Seq [2%float; 3%float]).
Proof.
  apply (proj2 (saved_values_last_save (Context_init false) [[1%float]] [2%float; 3%float])).
  reflexivity.
Defined.
